(** * Astron [NetworkClient]: framed receive loop and disconnect arbitration

    A shallow embedding of [src/net/NetworkClient.cpp] and
    [src/net/NetworkClient.h].  The object's fields form a record, each
    member function is a function on that record, and everything the object
    does to the outside world (socket calls, calls into the
    [NetworkHandler]) is appended to an effect log carried by the record.
    The ASIO reactor and the consumer are the environment: they drive the
    object through a list of events, and they decide whether an operation
    the object initiates throws.

    Left out: the recursive mutex (the public functions and
    [async_receive] take it, the completion handlers and
    [handle_disconnect] do not; here events are taken one at a time), and
    the socket options set by [initialize].  The handler's callbacks are recorded,
    not run: what a consumer calls from inside a callback appears as a
    later event. *)

From Stdlib Require Import ZArith List Lia Bool.
From coqutil Require Import Byte Word.LittleEndianList.
Import ListNotations.
Local Open Scope Z_scope.

(** ** [boost::system::error_code] *)

Inductive error_category :=
| system_category
| generic_category
| asio_category.

Record error_code := mk_error_code {
  ec_value : Z;
  ec_category : error_category
}.

(** A default-constructed [error_code] (as in the no-argument
    [disconnect()]): value 0, system category. *)
Definition no_error : error_code := mk_error_code 0 system_category.

(** [if(ec)]: an [error_code] tests true when its value is non-zero. *)
Definition ec_set (ec : error_code) : bool := negb (ec_value ec =? 0).

(** [error_code(errc::broken_pipe, system_category())]; [broken_pipe] is
    [EPIPE]. *)
Definition epipe : error_code := mk_error_code 32 system_category.

(** ** Sockets, endpoints, effects *)

Record tcp_socket := mk_socket { is_open : bool }.

(** A [tcp::endpoint] as (address, port). *)
Definition endpoint := (Z * Z)%type.

(** Modelled from the spec: [Datagram] comes from [util/Datagram.h], which
    is not among the sources.  The spec describes a message as an immutable,
    owned byte sequence with a known length, made by copying the receive
    buffer: so a list of bytes, [size()] its length, and [Datagram::create]
    the first [size] bytes of the buffer. *)
Definition Datagram := list byte.

Definition Datagram_size (dg : Datagram) : Z := Z.of_nat (length dg).

Definition Datagram_create (buf : list byte) (size : Z) : Datagram :=
  firstn (Z.to_nat size) buf.

(** The two completion handlers [socket_read] can be given. *)
Inductive receive_handler_t :=
| on_receive_size
| on_receive_data.

(** What the endpoint does to its collaborators, in the order it does it:
    the transport calls and the two [NetworkHandler] callbacks. *)
Inductive effect :=
| Close
| AsyncRead (secure : bool) (callback : receive_handler_t) (len : Z)
| Write (secure : bool) (bytes : list byte)
| ReceiveDatagram (dg : Datagram)
| ReceiveDisconnect (ec : error_code).

(** ** The object *)

Record NetworkClient := mkNetworkClient {
  m_socket : option tcp_socket;          (* [None] is [nullptr] *)
  m_ssl_enabled : bool;
  m_remote : endpoint;
  m_local : endpoint;
  m_disconnect_handled : bool;
  m_local_disconnect : bool;
  m_disconnect_error : error_code;
  m_size_buf : list byte;                (* [uint8_t[sizeof(dgsize_t)]] *)
  m_data_buf : list byte;                (* heap array; [[]] is [nullptr] *)
  m_data_size : Z;
  m_is_data : bool;
  (* the environment's side *)
  outstanding : option (receive_handler_t * Z);  (* the read the reactor owes *)
  effects : list effect
}.

Definition set_socket (v : option tcp_socket) (s : NetworkClient) :=
  mkNetworkClient v (m_ssl_enabled s) (m_remote s) (m_local s)
    (m_disconnect_handled s) (m_local_disconnect s) (m_disconnect_error s)
    (m_size_buf s) (m_data_buf s) (m_data_size s) (m_is_data s)
    (outstanding s) (effects s).

Definition set_ssl_enabled (v : bool) (s : NetworkClient) :=
  mkNetworkClient (m_socket s) v (m_remote s) (m_local s)
    (m_disconnect_handled s) (m_local_disconnect s) (m_disconnect_error s)
    (m_size_buf s) (m_data_buf s) (m_data_size s) (m_is_data s)
    (outstanding s) (effects s).

Definition set_remote (v : endpoint) (s : NetworkClient) :=
  mkNetworkClient (m_socket s) (m_ssl_enabled s) v (m_local s)
    (m_disconnect_handled s) (m_local_disconnect s) (m_disconnect_error s)
    (m_size_buf s) (m_data_buf s) (m_data_size s) (m_is_data s)
    (outstanding s) (effects s).

Definition set_local (v : endpoint) (s : NetworkClient) :=
  mkNetworkClient (m_socket s) (m_ssl_enabled s) (m_remote s) v
    (m_disconnect_handled s) (m_local_disconnect s) (m_disconnect_error s)
    (m_size_buf s) (m_data_buf s) (m_data_size s) (m_is_data s)
    (outstanding s) (effects s).

Definition set_disconnect_handled (v : bool) (s : NetworkClient) :=
  mkNetworkClient (m_socket s) (m_ssl_enabled s) (m_remote s) (m_local s)
    v (m_local_disconnect s) (m_disconnect_error s)
    (m_size_buf s) (m_data_buf s) (m_data_size s) (m_is_data s)
    (outstanding s) (effects s).

Definition set_local_disconnect (v : bool) (s : NetworkClient) :=
  mkNetworkClient (m_socket s) (m_ssl_enabled s) (m_remote s) (m_local s)
    (m_disconnect_handled s) v (m_disconnect_error s)
    (m_size_buf s) (m_data_buf s) (m_data_size s) (m_is_data s)
    (outstanding s) (effects s).

Definition set_disconnect_error (v : error_code) (s : NetworkClient) :=
  mkNetworkClient (m_socket s) (m_ssl_enabled s) (m_remote s) (m_local s)
    (m_disconnect_handled s) (m_local_disconnect s) v
    (m_size_buf s) (m_data_buf s) (m_data_size s) (m_is_data s)
    (outstanding s) (effects s).

Definition set_size_buf (v : list byte) (s : NetworkClient) :=
  mkNetworkClient (m_socket s) (m_ssl_enabled s) (m_remote s) (m_local s)
    (m_disconnect_handled s) (m_local_disconnect s) (m_disconnect_error s)
    v (m_data_buf s) (m_data_size s) (m_is_data s)
    (outstanding s) (effects s).

Definition set_data_buf (v : list byte) (s : NetworkClient) :=
  mkNetworkClient (m_socket s) (m_ssl_enabled s) (m_remote s) (m_local s)
    (m_disconnect_handled s) (m_local_disconnect s) (m_disconnect_error s)
    (m_size_buf s) v (m_data_size s) (m_is_data s)
    (outstanding s) (effects s).

Definition set_data_size (v : Z) (s : NetworkClient) :=
  mkNetworkClient (m_socket s) (m_ssl_enabled s) (m_remote s) (m_local s)
    (m_disconnect_handled s) (m_local_disconnect s) (m_disconnect_error s)
    (m_size_buf s) (m_data_buf s) v (m_is_data s)
    (outstanding s) (effects s).

Definition set_is_data (v : bool) (s : NetworkClient) :=
  mkNetworkClient (m_socket s) (m_ssl_enabled s) (m_remote s) (m_local s)
    (m_disconnect_handled s) (m_local_disconnect s) (m_disconnect_error s)
    (m_size_buf s) (m_data_buf s) (m_data_size s) v
    (outstanding s) (effects s).

Definition set_outstanding (v : option (receive_handler_t * Z))
    (s : NetworkClient) :=
  mkNetworkClient (m_socket s) (m_ssl_enabled s) (m_remote s) (m_local s)
    (m_disconnect_handled s) (m_local_disconnect s) (m_disconnect_error s)
    (m_size_buf s) (m_data_buf s) (m_data_size s) (m_is_data s)
    v (effects s).

Definition emit (e : effect) (s : NetworkClient) :=
  mkNetworkClient (m_socket s) (m_ssl_enabled s) (m_remote s) (m_local s)
    (m_disconnect_handled s) (m_local_disconnect s) (m_disconnect_error s)
    (m_size_buf s) (m_data_buf s) (m_data_size s) (m_is_data s)
    (outstanding s) (effects s ++ [e]).

(** Capacity of the payload buffer: the size of the array behind
    [m_data_buf]. *)
Definition capacity (s : NetworkClient) : Z := Z.of_nat (length (m_data_buf s)).

(** ** Reading the effect log *)

Definition is_notification (e : effect) : bool :=
  match e with ReceiveDisconnect _ => true | _ => false end.

Definition is_delivery (e : effect) : bool :=
  match e with ReceiveDatagram _ => true | _ => false end.

Definition is_read (e : effect) : bool :=
  match e with AsyncRead _ _ _ => true | _ => false end.

(** How many times [receive_disconnect] was called. *)
Definition notifications (s : NetworkClient) : nat :=
  length (filter is_notification (effects s)).

(** The causes handed to [receive_disconnect], in order. *)
Definition causes_of (log : list effect) : list error_code :=
  flat_map (fun e => match e with ReceiveDisconnect ec => [ec] | _ => [] end)
    log.

Definition causes (s : NetworkClient) : list error_code :=
  causes_of (effects s).

(** The datagrams handed to [receive_datagram], in order. *)
Definition delivered_of (log : list effect) : list Datagram :=
  flat_map (fun e => match e with ReceiveDatagram dg => [dg] | _ => [] end)
    log.

Definition delivered (s : NetworkClient) : list Datagram :=
  delivered_of (effects s).

(** The reads handed to the transport, in order. *)
Definition reads (s : NetworkClient) : list effect :=
  filter is_read (effects s).

(** All bytes written to the transport, in order. *)
Definition wire (s : NetworkClient) : list byte :=
  flat_map (fun e => match e with Write _ bs => bs | _ => [] end) (effects s).

(** ** The environment *)

(** What can happen to a bound endpoint: the consumer calls [disconnect] or
    [send_datagram], or the reactor completes the outstanding read with an
    error code and the bytes it transferred (a remote close is a completion
    with an end-of-file error, a cancelled read one with [ECANCELED]).
    [throws] says whether the operation the call initiates throws: the
    write for [CallSendDatagram], the next read for [ReadCompletes]. *)
Inductive event :=
| CallDisconnect (ec : error_code)
| CallSendDatagram (dg : Datagram) (throws : option error_code)
| ReadCompletes (ec : error_code) (data : list byte)
    (throws : option error_code).

(** How an endpoint is bound: which [initialize] overload, the socket, and
    what the environment answers to the two address queries and to the
    first read. *)
Record binding := mk_binding {
  bind_secure : bool;
  bind_socket : tcp_socket;
  bind_remote : endpoint * error_code;
  bind_local : endpoint * error_code;
  bind_throws : option error_code
}.

(** ** Concrete environments used in the examples *)

(** [ENOBUFS], [ECONNRESET], [ECANCELED] (what a cancelled read reports). *)
Definition enobufs : error_code := mk_error_code 105 system_category.
Definition econnreset : error_code := mk_error_code 104 system_category.
Definition ecanceled : error_code := mk_error_code 125 system_category.

(** [EBADF], what a write on a closed socket reports. *)
Definition ebadf : error_code := mk_error_code 9 system_category.

(** A connected plain socket whose addresses are found. *)
Definition plain_binding : binding :=
  mk_binding false (mk_socket true)
    ((1, 7199), no_error) ((2, 40000), no_error) None.

(** A connected socket whose local address query fails. *)
Definition no_local_address : binding :=
  mk_binding false (mk_socket true)
    ((1, 7199), no_error) ((0, 0), enobufs) None.

Definition abc : list byte := [Byte.x61; Byte.x62; Byte.x63].

(** A payload of a given length. *)
Definition payload_of_length (n : nat) : list byte := repeat Byte.x2a n.

Section Endpoint.

(** [sizeof(dgsize_t)], the width of the length prefix in bytes.  The type
    is declared in [util/Datagram.h], which is not among the sources, so the
    width is a parameter. *)
Variable dgsize_bytes : nat.

(** Byte order of the machine the endpoint runs on. *)
Variable big_endian_host : bool.

Definition sizeof_dgsize_t : Z := Z.of_nat dgsize_bytes.

(** Conversion of a [size_t] to [dgsize_t] keeps the low bits. *)
Definition to_dgsize_t (n : Z) : Z := n mod 2 ^ (sizeof_dgsize_t * 8).

(** The bytes of a [dgsize_t] object as they lie in memory (what the
    gather buffer over [&len] exposes). *)
Definition object_bytes (v : Z) : list byte :=
  if big_endian_host
  then rev (le_split dgsize_bytes v)
  else le_split dgsize_bytes v.

(** The [dgsize_t] read through a pointer cast of a byte array. *)
Definition object_value (bs : list byte) : Z :=
  le_combine (if big_endian_host then rev bs else bs).

(** Modelled from the spec: [swap_le] comes from [core/global.h], which is
    not among the sources.  The spec fixes the prefix as an unsigned integer
    in little-endian byte order, so [swap_le] converts between host order
    and little-endian order: the identity on a little-endian host, a byte
    reversal on a big-endian one. *)
Definition swap_le (v : Z) : Z :=
  if big_endian_host then le_combine (rev (le_split dgsize_bytes v)) else v.

(** *** Transport *)

(** [m_socket->close()].  (On an unbound endpoint [m_socket] is null; the
    environment below only ever calls a bound one.) *)
Definition close (s : NetworkClient) : NetworkClient :=
  emit Close (set_socket (option_map (fun _ => mk_socket false) (m_socket s)) s).

(** [m_socket->is_open()].  (As for [close]: on an unbound endpoint the
    code dereferences a null pointer; what is proved of this function is
    proved of bound endpoints.) *)
Definition is_connected (s : NetworkClient) : bool :=
  match m_socket s with
  | Some sock => is_open sock
  | None => false
  end.

(** [socket_read(buf, length, callback)]: hands one read to the reactor,
    through the secure stream when [m_ssl_enabled].  The buffer is the one
    that belongs to the callback ([m_size_buf] or [m_data_buf]).  [throws]
    is the environment's answer: [Some err] when initiating the read raises
    [boost::system::system_error]. *)
Definition socket_read (s : NetworkClient) (len : Z)
    (callback : receive_handler_t) (throws : option error_code)
    : NetworkClient + error_code :=
  match throws with
  | Some err => inr err
  | None =>
      inl (emit (AsyncRead (m_ssl_enabled s) callback len)
             (set_outstanding (Some (callback, len)) s))
  end.

(** [socket_write(buffers)]: one gathered, blocking write. *)
Definition socket_write (s : NetworkClient) (buffers : list (list byte))
    (throws : option error_code) : NetworkClient + error_code :=
  match throws with
  | Some err => inr err
  | None => inl (emit (Write (m_ssl_enabled s) (concat buffers)) s)
  end.

(** *** [NetworkHandler] callbacks *)

Definition receive_datagram (dg : Datagram) (s : NetworkClient) :=
  emit (ReceiveDatagram dg) s.

Definition receive_disconnect (ec : error_code) (s : NetworkClient) :=
  emit (ReceiveDisconnect ec) s.

(** *** Member functions *)

Definition disconnect (s : NetworkClient) (ec : error_code) : NetworkClient :=
  let s := set_local_disconnect true s in
  let s := set_disconnect_error ec s in
  close s.

(** The no-argument overload passes a default-constructed [error_code]. *)
Definition disconnect_no_cause (s : NetworkClient) : NetworkClient :=
  let ec := no_error in
  disconnect s ec.

Definition handle_disconnect (s : NetworkClient) (ec : error_code)
    : NetworkClient :=
  if m_disconnect_handled s then s
  else
    let s := set_disconnect_handled true s in
    let s := if is_connected s then close s else s in
    if m_local_disconnect s
    then receive_disconnect (m_disconnect_error s) s
    else receive_disconnect ec s.

Definition async_receive (s : NetworkClient) (throws : option error_code)
    : NetworkClient :=
  let attempt :=
    if m_is_data s
    then socket_read s (m_data_size s) on_receive_data throws
    else socket_read s sizeof_dgsize_t on_receive_size throws in
  match attempt with
  | inl s' => s'
  | inr err => disconnect s err
  end.

(** The read [async_receive] asks for: callback and byte count. *)
Definition next_read (s : NetworkClient) : receive_handler_t * Z :=
  if m_is_data s
  then (on_receive_data, m_data_size s)
  else (on_receive_size, sizeof_dgsize_t).

(** [throws] covers the whole [try] block (the switch to non-blocking mode
    and the write). *)
Definition send_datagram (s : NetworkClient) (dg : Datagram)
    (throws : option error_code) : NetworkClient :=
  let len := swap_le (to_dgsize_t (Datagram_size dg)) in
  let gather := [object_bytes len; dg] in
  match socket_write s gather throws with
  | inl s' => s'
  | inr err => disconnect s err
  end.

(** [new uint8_t[n]]: the contents are indeterminate; zeros stand for them. *)
Definition new_array (n : Z) : list byte := repeat Byte.x00 (Z.to_nat n).

Definition receive_size (s : NetworkClient) (ec : error_code)
    (bytes_transferred : Z) (throws : option error_code) : NetworkClient :=
  if ec_set ec then handle_disconnect s ec
  else if negb (bytes_transferred =? sizeof_dgsize_t)
  then handle_disconnect s epipe
  else
    let old_size := m_data_size s in
    let s := set_data_size (swap_le (object_value (m_size_buf s))) s in
    let s :=
      if old_size <? m_data_size s
      then set_data_buf (new_array (m_data_size s)) s
      else s in
    let s := set_is_data true s in
    async_receive s throws.

Definition receive_data (s : NetworkClient) (ec : error_code)
    (bytes_transferred : Z) (throws : option error_code) : NetworkClient :=
  if ec_set ec then handle_disconnect s ec
  else if negb (bytes_transferred =? m_data_size s)
  then handle_disconnect s epipe
  else
    let dg := Datagram_create (m_data_buf s) (m_data_size s) in
    let s := set_is_data false s in
    let s := receive_datagram dg s in
    async_receive s throws.

(** [remote_endpoint(ec)] and [local_endpoint(ec)] each assign [ec], so the
    value tested is the one the second query left. *)
Definition determine_endpoints (s : NetworkClient)
    (remote_query local_query : endpoint * error_code)
    : bool * NetworkClient :=
  let ec := no_error in
  let '(remote, ec) := remote_query in
  let s := set_remote remote s in
  let '(local, ec) := local_query in
  let s := set_local local s in
  if ec_set ec then (false, disconnect s ec) else (true, s).

(** [None] is the [std::logic_error] thrown on a second bind. *)
Definition initialize (s : NetworkClient) (socket : tcp_socket)
    (remote_query local_query : endpoint * error_code)
    (throws : option error_code) : option NetworkClient :=
  match m_socket s with
  | Some _ => None
  | None =>
      let s := set_socket (Some socket) s in
      let '(found, s) := determine_endpoints s remote_query local_query in
      Some (if found then async_receive s throws else s)
  end.

Definition initialize_ssl (s : NetworkClient) (socket : tcp_socket)
    (remote_query local_query : endpoint * error_code)
    (throws : option error_code) : option NetworkClient :=
  match m_socket s with
  | Some _ => None
  | None =>
      let s := set_ssl_enabled true s in
      initialize s socket remote_query local_query throws
  end.

(** The constructor together with the default member initialisers. *)
Definition construct : NetworkClient :=
  mkNetworkClient None false (0, 0) (0, 0) false false no_error
    (repeat Byte.x00 dgsize_bytes) [] 0 false None [].

(** ** Driving the endpoint *)

(** The reactor stores the transferred bytes at the start of the target
    buffer. *)
Definition store (buf got : list byte) : list byte :=
  got ++ skipn (length got) buf.

(** The state a completion handler runs in: the read is no longer
    outstanding and the transferred bytes are in the buffer that was handed
    to [socket_read]. *)
Definition completed (s : NetworkClient) (callback : receive_handler_t)
    (got : list byte) : NetworkClient :=
  let s := set_outstanding None s in
  match callback with
  | on_receive_size => set_size_buf (store (m_size_buf s) got) s
  | on_receive_data => set_data_buf (store (m_data_buf s) got) s
  end.

(** A completion without an outstanding read does not occur and is ignored;
    a read transfers at most the requested count. *)
Definition step (s : NetworkClient) (ev : event) : NetworkClient :=
  match ev with
  | CallDisconnect ec => disconnect s ec
  | CallSendDatagram dg throws => send_datagram s dg throws
  | ReadCompletes ec data throws =>
      match outstanding s with
      | None => s
      | Some (callback, len) =>
          let got := firstn (Z.to_nat len) data in
          let bytes_transferred := Z.of_nat (length got) in
          let s := completed s callback got in
          match callback with
          | on_receive_size => receive_size s ec bytes_transferred throws
          | on_receive_data => receive_data s ec bytes_transferred throws
          end
      end
  end.

Definition run (s : NetworkClient) (evs : list event) : NetworkClient :=
  fold_left step evs s.

Definition bind (s : NetworkClient) (b : binding) : option NetworkClient :=
  if bind_secure b
  then initialize_ssl s (bind_socket b) (bind_remote b) (bind_local b)
         (bind_throws b)
  else initialize s (bind_socket b) (bind_remote b) (bind_local b)
         (bind_throws b).

(** An endpoint's life: constructed, bound once, then driven by events. *)
Definition lifetime (b : binding) (evs : list event) : NetworkClient :=
  match bind construct b with
  | Some s => run s evs
  | None => construct
  end.

(** The reactor reading from a byte stream that has arrived: as long as a
    read is outstanding and the stream holds the requested count, the read
    completes successfully with exactly those bytes; otherwise it stays
    outstanding. *)
Fixpoint pump (fuel : nat) (s : NetworkClient) (stream : list byte)
    : NetworkClient * list byte :=
  match fuel with
  | O => (s, stream)
  | S fuel' =>
      match outstanding s with
      | None => (s, stream)
      | Some (_, len) =>
          if Z.of_nat (length stream) <? len then (s, stream)
          else
            pump fuel'
              (step s (ReadCompletes no_error
                         (firstn (Z.to_nat len) stream) None))
              (skipn (Z.to_nat len) stream)
      end
  end.

(** The two completions by which one message arrives whole: its prefix,
    then its payload. *)
Definition receive_message (s : NetworkClient) (payload : list byte)
    : NetworkClient :=
  run s [ReadCompletes no_error
           (le_split dgsize_bytes (Z.of_nat (length payload))) None;
         ReadCompletes no_error payload None].

Definition receive_messages (s : NetworkClient) (payloads : list (list byte))
    : NetworkClient :=
  fold_left receive_message payloads s.

(** A payload length the prefix can carry. *)
Definition representable (payload : list byte) : Prop :=
  Z.of_nat (length payload) < 2 ^ (sizeof_dgsize_t * 8).

(** The wire format in the spec's words: the payload's length as an
    unsigned little-endian integer of the prefix width, followed by the
    payload bytes.  What [send_datagram] writes is compared with it. *)
Definition frame (payload : list byte) : list byte :=
  le_split dgsize_bytes (Z.of_nat (length payload)) ++ payload.

(** The cause [handle_disconnect] hands to the handler when it notifies. *)
Definition cause_given (s : NetworkClient) (ec : error_code) : error_code :=
  if m_local_disconnect s then m_disconnect_error s else ec.

(** The invariant of a bound endpoint: the prefix buffer has the prefix
    width; the payload buffer holds at least the expected length; a read is
    outstanding only while the notification has not been given, and it is
    the read [async_receive] would ask for; the notification has been
    given once if [m_disconnect_handled] and not at all otherwise. *)
Record well_formed (s : NetworkClient) : Prop := mk_well_formed {
  wf_size_buf : length (m_size_buf s) = dgsize_bytes;
  wf_capacity : 0 <= m_data_size s <= capacity s;
  wf_outstanding :
    forall callback len, outstanding s = Some (callback, len) ->
      m_disconnect_handled s = false /\ (callback, len) = next_read s;
  wf_notifications :
    notifications s = if m_disconnect_handled s then 1%nat else 0%nat
}.

(** *** The rest of the interface *)

(** [get_remote()] and [get_local()]. *)
Definition get_remote (s : NetworkClient) : endpoint := m_remote s.

Definition get_local (s : NetworkClient) : endpoint := m_local s.

(** [~NetworkClient()]: asserts [!is_connected()], then releases the socket
    (through the secure stream when that owns it) and the payload buffer.
    [None] is the failed assertion. *)
Definition destructor (s : NetworkClient) : option unit :=
  if is_connected s then None else Some tt.

(** *** Reading events and effects *)

Definition is_completion (ev : event) : bool :=
  match ev with ReadCompletes _ _ _ => true | _ => false end.

(** The cause a consumer call leaves in [m_disconnect_error]: the one given
    to [disconnect], or the error of a write that throws. *)
Definition recorded_cause (ev : event) : option error_code :=
  match ev with
  | CallDisconnect ec => Some ec
  | CallSendDatagram _ (Some err) => Some err
  | _ => None
  end.

(** The last cause a sequence of consumer calls records, if any. *)
Definition last_recorded (calls : list event) : option error_code :=
  fold_left
    (fun acc ev => match recorded_cause ev with Some ec => Some ec | None => acc end)
    calls None.

(** The transport an effect went through: [Some true] the secure stream,
    [Some false] the plain socket, [None] for effects that are not reads or
    writes. *)
Definition transport_of (e : effect) : option bool :=
  match e with
  | AsyncRead secure _ _ => Some secure
  | Write secure _ => Some secure
  | _ => None
  end.

(** The callbacks of the reads handed to the transport, in order. *)
Definition callbacks_of (log : list effect) : list receive_handler_t :=
  flat_map (fun e => match e with AsyncRead _ c _ => [c] | _ => [] end) log.

Definition read_callbacks (s : NetworkClient) : list receive_handler_t :=
  callbacks_of (effects s).

Definition other_handler (c : receive_handler_t) : receive_handler_t :=
  match c with
  | on_receive_size => on_receive_data
  | on_receive_data => on_receive_size
  end.

(** A sequence of callbacks that starts with [expected] and then takes the
    two handlers in turn. *)
Fixpoint alternates (expected : receive_handler_t)
    (l : list receive_handler_t) : Prop :=
  match l with
  | [] => True
  | c :: l' => c = expected /\ alternates (other_handler c) l'
  end.

(** The same object with another effect log. *)
Definition with_log (log : list effect) (s : NetworkClient) : NetworkClient :=
  mkNetworkClient (m_socket s) (m_ssl_enabled s) (m_remote s) (m_local s)
    (m_disconnect_handled s) (m_local_disconnect s) (m_disconnect_error s)
    (m_size_buf s) (m_data_buf s) (m_data_size s) (m_is_data s)
    (outstanding s) log.

(** What one step appends to the effect log. *)
Definition emitted (s : NetworkClient) (ev : event) : list effect :=
  effects (step (with_log [] s) ev).


(** ** Byte order *)

Lemma swap_le_object_value (bs : list byte) :
  length bs = dgsize_bytes ->
  swap_le (object_value bs) = le_combine bs.
Proof.
  intros Hlen. unfold swap_le, object_value.
  destruct big_endian_host; [|reflexivity].
  rewrite <- Hlen, <- length_rev, split_le_combine, rev_involutive.
  reflexivity.
Qed.

Lemma object_bytes_swap_le (v : Z) :
  object_bytes (swap_le v) = le_split dgsize_bytes v.
Proof.
  unfold object_bytes, swap_le.
  destruct big_endian_host; [|reflexivity].
  rewrite <- (length_le_split dgsize_bytes v) at 1.
  rewrite <- length_rev, split_le_combine, rev_involutive.
  reflexivity.
Qed.

(** Decoding the prefix of a frame gives the payload length back, reduced
    to the prefix width. *)
Lemma le_combine_prefix (n : Z) :
  le_combine (le_split dgsize_bytes n) = to_dgsize_t n.
Proof. apply le_combine_split. Qed.

Lemma to_dgsize_t_small (n : Z) :
  0 <= n < 2 ^ (sizeof_dgsize_t * 8) -> to_dgsize_t n = n.
Proof. intros H. apply Z.mod_small, H. Qed.

(** ** The effect log *)

Lemma notifications_emit (e : effect) (s : NetworkClient) :
  notifications (emit e s)
  = (notifications s + if is_notification e then 1 else 0)%nat.
Proof.
  unfold notifications, emit; simpl.
  rewrite filter_app, length_app; simpl.
  destruct (is_notification e); reflexivity.
Qed.

Lemma causes_emit (e : effect) (s : NetworkClient) :
  causes (emit e s)
  = causes s ++ match e with ReceiveDisconnect ec => [ec] | _ => [] end.
Proof.
  unfold causes, causes_of, emit; simpl.
  rewrite flat_map_app; simpl. rewrite app_nil_r. reflexivity.
Qed.

Lemma delivered_emit (e : effect) (s : NetworkClient) :
  delivered (emit e s)
  = delivered s ++ match e with ReceiveDatagram dg => [dg] | _ => [] end.
Proof.
  unfold delivered, delivered_of, emit; simpl.
  rewrite flat_map_app; simpl. rewrite app_nil_r. reflexivity.
Qed.

Lemma reads_emit (e : effect) (s : NetworkClient) :
  reads (emit e s) = reads s ++ if is_read e then [e] else [].
Proof.
  unfold reads, emit; simpl.
  rewrite filter_app; simpl.
  destruct (is_read e); reflexivity.
Qed.

Lemma wire_emit (e : effect) (s : NetworkClient) :
  wire (emit e s)
  = wire s ++ match e with Write _ bs => bs | _ => [] end.
Proof.
  unfold wire, emit; simpl.
  rewrite flat_map_app; simpl. rewrite app_nil_r. reflexivity.
Qed.

(** The causes are the notifications, so there are as many. *)
Lemma length_causes (s : NetworkClient) :
  length (causes s) = notifications s.
Proof.
  unfold causes, causes_of, notifications.
  induction (effects s) as [|e l IH]; simpl; [reflexivity|].
  destruct e; simpl; auto.
Qed.

(** ** What each member function leaves behind *)

(** [disconnect] touches the disconnect record and the socket, never the
    receive loop, and calls nothing on the handler. *)
Lemma disconnect_spec (s : NetworkClient) (ec : error_code) :
  let s' := disconnect s ec in
  m_local_disconnect s' = true /\
  m_disconnect_error s' = ec /\
  is_connected s' = false /\
  effects s' = effects s ++ [Close] /\
  m_disconnect_handled s' = m_disconnect_handled s /\
  outstanding s' = outstanding s /\
  m_size_buf s' = m_size_buf s /\
  m_data_buf s' = m_data_buf s /\
  m_data_size s' = m_data_size s /\
  m_is_data s' = m_is_data s /\
  m_ssl_enabled s' = m_ssl_enabled s.
Proof.
  unfold disconnect, close, is_connected; simpl.
  destruct (m_socket s); simpl; repeat split; reflexivity.
Qed.

(** [handle_disconnect] is a no-op once the notification has been given;
    the first call closes the socket if it is still open and notifies the
    handler, with the recorded cause if the disconnect was local. *)
Lemma handle_disconnect_again (s : NetworkClient) (ec : error_code) :
  m_disconnect_handled s = true -> handle_disconnect s ec = s.
Proof. intros H. unfold handle_disconnect. rewrite H. reflexivity. Qed.

Lemma handle_disconnect_first (s : NetworkClient) (ec : error_code) :
  m_disconnect_handled s = false ->
  let s' := handle_disconnect s ec in
  m_disconnect_handled s' = true /\
  is_connected s' = false /\
  effects s'
  = effects s ++ (if is_connected s then [Close] else [])
      ++ [ReceiveDisconnect
            (if m_local_disconnect s then m_disconnect_error s else ec)] /\
  outstanding s' = outstanding s /\
  m_local_disconnect s' = m_local_disconnect s /\
  m_disconnect_error s' = m_disconnect_error s /\
  m_size_buf s' = m_size_buf s /\
  m_data_buf s' = m_data_buf s /\
  m_data_size s' = m_data_size s /\
  m_is_data s' = m_is_data s.
Proof.
  destruct s as [sock ssl rem loc handled local_flag cause sb db ds isd o l].
  simpl. intros ->.
  unfold handle_disconnect, is_connected, close, receive_disconnect; simpl.
  destruct sock as [[[|]]|], local_flag; simpl;
    rewrite <- ?app_assoc; repeat split; reflexivity.
Qed.

(** [async_receive] asks for the payload when [m_is_data], else for the
    prefix; if initiating the read throws it is a local disconnect. *)
Lemma async_receive_issued (s : NetworkClient) :
  let s' := async_receive s None in
  outstanding s' = Some (next_read s) /\
  effects s'
  = effects s
      ++ [AsyncRead (m_ssl_enabled s) (fst (next_read s)) (snd (next_read s))] /\
  m_disconnect_handled s' = m_disconnect_handled s /\
  m_local_disconnect s' = m_local_disconnect s /\
  m_disconnect_error s' = m_disconnect_error s /\
  m_size_buf s' = m_size_buf s /\
  m_data_buf s' = m_data_buf s /\
  m_data_size s' = m_data_size s /\
  m_is_data s' = m_is_data s /\
  m_ssl_enabled s' = m_ssl_enabled s /\
  is_connected s' = is_connected s.
Proof.
  destruct s as [sock ssl rem loc handled local_flag cause sb db ds isd o l].
  unfold async_receive, next_read, socket_read; simpl.
  destruct isd; simpl; repeat split; reflexivity.
Qed.

Lemma async_receive_throws (s : NetworkClient) (err : error_code) :
  async_receive s (Some err) = disconnect s err.
Proof.
  unfold async_receive, socket_read. destruct (m_is_data s); reflexivity.
Qed.

Lemma length_store (buf got : list byte) :
  (length got <= length buf)%nat -> length (store buf got) = length buf.
Proof.
  intros H. unfold store. rewrite length_app, length_skipn. lia.
Qed.

Lemma store_full (buf got : list byte) :
  length got = length buf -> store buf got = got.
Proof.
  intros H. unfold store. rewrite H, skipn_all, app_nil_r. reflexivity.
Qed.

Lemma firstn_store (buf got : list byte) :
  firstn (length got) (store buf got) = got.
Proof.
  unfold store. rewrite firstn_app, Nat.sub_diag, firstn_all. simpl.
  apply app_nil_r.
Qed.

(** ** The invariant holds throughout an endpoint's life *)

Lemma causes_effects (s s' : NetworkClient) (l : list effect) :
  effects s' = effects s ++ l -> causes s' = causes s ++ causes_of l.
Proof.
  intros H. unfold causes, causes_of. rewrite H. apply flat_map_app.
Qed.

Lemma delivered_effects (s s' : NetworkClient) (l : list effect) :
  effects s' = effects s ++ l -> delivered s' = delivered s ++ delivered_of l.
Proof.
  intros H. unfold delivered, delivered_of. rewrite H. apply flat_map_app.
Qed.

Lemma reads_effects (s s' : NetworkClient) (l : list effect) :
  effects s' = effects s ++ l -> reads s' = reads s ++ filter is_read l.
Proof.
  intros H. unfold reads. rewrite H. apply filter_app.
Qed.

Lemma notifications_effects (s s' : NetworkClient) (l : list effect) :
  effects s' = effects s ++ l ->
  notifications s' = (notifications s + length (filter is_notification l))%nat.
Proof.
  intros H. unfold notifications. rewrite H, filter_app, length_app.
  reflexivity.
Qed.

Lemma wf_disconnect (s : NetworkClient) (ec : error_code) :
  well_formed s -> well_formed (disconnect s ec).
Proof.
  intros [H1 H2 H3 H4].
  destruct (disconnect_spec s ec)
    as (_ & _ & _ & He & Hh & Ho & Hsb & Hdb & Hds & Hid & _).
  constructor.
  - rewrite Hsb. exact H1.
  - unfold capacity. rewrite Hds, Hdb. exact H2.
  - intros cb len. rewrite Ho, Hh. unfold next_read. rewrite Hid, Hds.
    apply H3.
  - rewrite (notifications_effects _ _ _ He), Hh, H4. simpl. lia.
Qed.

Lemma wf_handle_disconnect (s : NetworkClient) (ec : error_code) :
  well_formed s -> outstanding s = None ->
  well_formed (handle_disconnect s ec).
Proof.
  intros Hwf Hnone.
  destruct (m_disconnect_handled s) eqn:Hh.
  - rewrite handle_disconnect_again by exact Hh. exact Hwf.
  - destruct Hwf as [H1 H2 H3 H4]. rewrite Hh in H4.
    destruct (handle_disconnect_first s ec Hh)
      as (Hh' & _ & He & Ho & _ & _ & Hsb & Hdb & Hds & Hid).
    constructor.
    + rewrite Hsb. exact H1.
    + unfold capacity. rewrite Hds, Hdb. exact H2.
    + intros cb len. rewrite Ho, Hnone. discriminate.
    + rewrite (notifications_effects _ _ _ He), Hh', H4.
      rewrite filter_app, length_app.
      destruct (is_connected s); simpl; reflexivity.
Qed.

Lemma wf_async_receive (s : NetworkClient) (throws : option error_code) :
  well_formed s -> outstanding s = None -> m_disconnect_handled s = false ->
  well_formed (async_receive s throws).
Proof.
  intros Hwf Hnone Hh. destruct throws as [err|].
  - rewrite async_receive_throws. apply wf_disconnect, Hwf.
  - destruct Hwf as [H1 H2 H3 H4].
    destruct (async_receive_issued s)
      as (Ho & He & Hh' & _ & _ & Hsb & Hdb & Hds & Hid & _).
    constructor.
    + rewrite Hsb. exact H1.
    + unfold capacity. rewrite Hds, Hdb. exact H2.
    + intros cb len. rewrite Ho, Hh'. intros [= <-]. split; [exact Hh|].
      unfold next_read. rewrite Hid, Hds. reflexivity.
    + rewrite (notifications_effects _ _ _ He), Hh', H4. simpl. lia.
Qed.

Lemma swap_le_nonneg (bs : list byte) :
  length bs = dgsize_bytes -> 0 <= swap_le (object_value bs).
Proof.
  intros H. rewrite swap_le_object_value by exact H.
  apply le_combine_bound.
Qed.

Lemma wf_receive_size (s : NetworkClient) (ec : error_code) (n : Z)
    (throws : option error_code) :
  well_formed s -> outstanding s = None -> m_disconnect_handled s = false ->
  well_formed (receive_size s ec n throws).
Proof.
  intros Hwf Hnone Hh. unfold receive_size.
  destruct (ec_set ec); [apply wf_handle_disconnect; assumption|].
  destruct (negb (n =? sizeof_dgsize_t));
    [apply wf_handle_disconnect; assumption|].
  destruct Hwf as [H1 H2 H3 H4].
  pose proof (swap_le_nonneg _ H1) as Hpos.
  destruct s as [sock ssl rem loc handled local_flag cause sb db ds isd o l].
  unfold capacity, notifications in *. simpl in *. subst.
  apply wf_async_receive.
  - destruct (ds <? swap_le (object_value sb)) eqn:Hgrow; simpl.
    + constructor; unfold capacity, notifications, new_array; simpl;
        try assumption; try discriminate.
      rewrite repeat_length. lia.
    + apply Z.ltb_ge in Hgrow.
      constructor; unfold capacity, notifications; simpl;
        try assumption; try discriminate.
      lia.
  - destruct (ds <? swap_le (object_value sb)); reflexivity.
  - destruct (ds <? swap_le (object_value sb)); reflexivity.
Qed.

Lemma wf_receive_data (s : NetworkClient) (ec : error_code) (n : Z)
    (throws : option error_code) :
  well_formed s -> outstanding s = None -> m_disconnect_handled s = false ->
  well_formed (receive_data s ec n throws).
Proof.
  intros Hwf Hnone Hh. unfold receive_data.
  destruct (ec_set ec); [apply wf_handle_disconnect; assumption|].
  destruct (negb (n =? m_data_size s));
    [apply wf_handle_disconnect; assumption|].
  destruct Hwf as [H1 H2 H3 H4].
  apply wf_async_receive; [|exact Hnone|exact Hh].
  constructor.
  - exact H1.
  - exact H2.
  - simpl. rewrite Hnone. discriminate.
  - unfold receive_datagram. rewrite notifications_emit. simpl.
    rewrite Nat.add_0_r. exact H4.
Qed.

Lemma wf_send_datagram (s : NetworkClient) (dg : list byte)
    (throws : option error_code) :
  well_formed s -> well_formed (send_datagram s dg throws).
Proof.
  intros Hwf. unfold send_datagram, socket_write.
  destruct throws as [err|]; [apply wf_disconnect, Hwf|].
  destruct Hwf as [H1 H2 H3 H4].
  constructor.
  - exact H1.
  - exact H2.
  - exact H3.
  - rewrite notifications_emit. simpl. rewrite Nat.add_0_r. exact H4.
Qed.

(** The bytes a completion transfers fit the buffer they go to. *)
Lemma length_firstn_le (n : nat) (data : list byte) :
  (length (firstn n data) <= n)%nat.
Proof. rewrite length_firstn. lia. Qed.

Theorem wf_step (s : NetworkClient) (ev : event) :
  well_formed s -> well_formed (step s ev).
Proof.
  intros Hwf. destruct ev as [ec|dg throws|ec data throws]; simpl.
  - apply wf_disconnect, Hwf.
  - apply wf_send_datagram, Hwf.
  - destruct (outstanding s) as [[callback len]|] eqn:Ho; [|exact Hwf].
    destruct Hwf as [H1 H2 H3 H4].
    destruct (H3 _ _ Ho) as [Hh Hnext].
    pose proof (length_firstn_le (Z.to_nat len) data) as Hgot.
    unfold next_read in Hnext.
    destruct (m_is_data s) eqn:Hisd; injection Hnext as -> ->.
    + apply wf_receive_data; [|reflexivity|exact Hh].
      constructor; unfold capacity in *; simpl; try assumption;
        try discriminate.
      rewrite length_store; lia.
    + apply wf_receive_size; [|reflexivity|exact Hh].
      constructor; unfold capacity, sizeof_dgsize_t in *; simpl;
        try assumption; try discriminate.
      rewrite length_store; lia.
Qed.

Lemma wf_run (evs : list event) (s : NetworkClient) :
  well_formed s -> well_formed (run s evs).
Proof.
  revert s. induction evs as [|ev evs IH]; intros s Hwf; simpl.
  - exact Hwf.
  - apply IH, wf_step, Hwf.
Qed.

(** Binding a freshly constructed endpoint never throws. *)
Lemma bind_construct (b : binding) :
  exists s, bind construct b = Some s /\ well_formed s.
Proof.
  destruct b as [secure sock [remote rec] [local lec] throws].
  unfold bind, initialize_ssl, initialize, determine_endpoints; simpl.
  assert (Hwf : forall ssl, well_formed
            (set_local local (set_remote remote (set_socket (Some sock)
               (set_ssl_enabled ssl construct))))).
  { intros ssl. constructor; unfold capacity, notifications; simpl;
      try discriminate; try reflexivity; try lia.
    apply repeat_length. }
  destruct secure; simpl; destruct (ec_set lec); eexists; split;
    try reflexivity;
    try (apply wf_disconnect, Hwf);
    try (apply wf_async_receive; [apply Hwf|reflexivity|reflexivity]).
Qed.

Theorem wf_lifetime (b : binding) (evs : list event) :
  well_formed (lifetime b evs).
Proof.
  unfold lifetime. destruct (bind_construct b) as (s & -> & Hwf).
  apply wf_run, Hwf.
Qed.

(** ** The notification is given at most once *)

(** X14.  In every life of an endpoint, however it was bound and whatever
    calls, completions and errors follow in whatever order,
    [receive_disconnect] is called at most once. *)
Lemma at_most_one_notification (b : binding) (evs : list event) :
  (notifications (lifetime b evs) <= 1)%nat.
Proof.
  rewrite (wf_notifications _ (wf_lifetime b evs)).
  destruct (m_disconnect_handled (lifetime b evs)); lia.
Qed.

(** It has been given exactly when [m_disconnect_handled] is set. *)
Lemma notified_iff_handled (b : binding) (evs : list event) :
  notifications (lifetime b evs) = 1%nat
  <-> m_disconnect_handled (lifetime b evs) = true.
Proof.
  rewrite (wf_notifications _ (wf_lifetime b evs)).
  destruct (m_disconnect_handled (lifetime b evs)); split; congruence.
Qed.

(** ** An endpoint without an outstanding read *)

(** [handle_disconnect] is only ever called from a read completion.  With
    no read outstanding, whatever the consumer calls, nothing reaches the
    handler and no read is started. *)
Lemma idle_step (s : NetworkClient) (ev : event) :
  outstanding s = None ->
  outstanding (step s ev) = None /\
  causes (step s ev) = causes s /\
  delivered (step s ev) = delivered s /\
  reads (step s ev) = reads s /\
  (is_connected s = false -> is_connected (step s ev) = false).
Proof.
  intros Ho.
  assert (Hd : forall ec,
    outstanding (disconnect s ec) = None /\
    causes (disconnect s ec) = causes s /\
    delivered (disconnect s ec) = delivered s /\
    reads (disconnect s ec) = reads s /\
    (is_connected s = false -> is_connected (disconnect s ec) = false)).
  { intros ec. unfold disconnect, close.
    rewrite causes_emit, delivered_emit, reads_emit, !app_nil_r.
    repeat split; try assumption.
    intros _. unfold is_connected. simpl.
    destruct (m_socket s); reflexivity. }
  destruct ev as [ec|dg throws|ec data throws]; simpl.
  - apply Hd.
  - unfold send_datagram, socket_write. destruct throws as [err|].
    + apply Hd.
    + rewrite causes_emit, delivered_emit, reads_emit, !app_nil_r.
      repeat split; try assumption. intros H; exact H.
  - rewrite Ho. repeat split; try assumption. intros H; exact H.
Qed.

Lemma idle_run (evs : list event) (s : NetworkClient) :
  outstanding s = None ->
  outstanding (run s evs) = None /\
  causes (run s evs) = causes s /\
  delivered (run s evs) = delivered s /\
  reads (run s evs) = reads s /\
  (is_connected s = false -> is_connected (run s evs) = false).
Proof.
  revert s. induction evs as [|ev evs IH]; intros s Ho; simpl.
  - repeat split; auto.
  - destruct (idle_step s ev Ho) as (Ho' & Hc & Hd & Hr & Hconn).
    destruct (IH _ Ho') as (Ho'' & Hc' & Hd' & Hr' & Hconn').
    rewrite Hc', Hd', Hr', Hc, Hd, Hr. repeat split; auto.
Qed.

Lemma lifetime_app (b : binding) (evs evs' : list event) :
  lifetime b (evs ++ evs') = run (lifetime b evs) evs'.
Proof.
  unfold lifetime. destruct (bind_construct b) as (s & -> & _).
  unfold run. apply fold_left_app.
Qed.

(** ** Binding when address discovery fails *)

(** When the local address query reports an error, [determine_endpoints]
    records a local disconnect with that error and closes the socket; no
    read is started. *)
Lemma bind_local_failure (b : binding) :
  ec_set (snd (bind_local b)) = true ->
  let s := lifetime b [] in
  m_local_disconnect s = true /\
  m_disconnect_error s = snd (bind_local b) /\
  is_connected s = false /\
  m_disconnect_handled s = false /\
  outstanding s = None /\
  effects s = [Close].
Proof.
  destruct b as [secure sock [remote rec] [local lec] throws]; simpl.
  intros Hec.
  unfold lifetime, bind, initialize_ssl, initialize, determine_endpoints.
  destruct secure; simpl; rewrite Hec; simpl; repeat split; reflexivity.
Qed.

(** The same failure on the remote query alone is lost: the second query
    overwrites [ec], and the receive loop starts as if nothing happened. *)
Lemma bind_remote_failure_overwritten (b : binding) :
  ec_set (snd (bind_local b)) = false -> bind_throws b = None ->
  let s := lifetime b [] in
  m_local_disconnect s = false /\
  is_connected s = is_open (bind_socket b) /\
  outstanding s = Some (on_receive_size, sizeof_dgsize_t) /\
  effects s = [AsyncRead (bind_secure b) on_receive_size sizeof_dgsize_t].
Proof.
  destruct b as [secure sock [remote rec] [local lec] throws]; simpl.
  intros Hec ->.
  unfold lifetime, bind, initialize_ssl, initialize, determine_endpoints.
  destruct secure; simpl; rewrite Hec; simpl; repeat split; reflexivity.
Qed.

Lemma never_notified_after_failed_bind (b : binding) (evs : list event) :
  ec_set (snd (bind_local b)) = true ->
  let s := lifetime b evs in
  causes s = [] /\ delivered s = [] /\ reads s = [] /\
  outstanding s = None /\ is_connected s = false.
Proof.
  intros Hec.
  destruct (bind_local_failure b Hec) as (_ & _ & Hconn & _ & Ho & He).
  change evs with ([] ++ evs). rewrite lifetime_app.
  destruct (idle_run evs _ Ho) as (Ho' & Hc & Hd & Hr & Hconn').
  simpl. rewrite Hc, Hd, Hr. unfold causes, delivered, reads. rewrite He.
  simpl. repeat split; auto.
Qed.

(** C1.  The claim is that [receive_disconnect] is called exactly once in
    every endpoint's life.  Here is a life in which it is never called: the
    endpoint is bound to a socket whose local address query fails.
    [determine_endpoints] calls [disconnect], which records the cause and
    closes the socket, and [initialize] returns without starting a read.
    Only a read completion calls [handle_disconnect], so whatever the
    consumer does afterwards the count stays at zero, on a socket that is
    closed (the destructor's precondition). *)
Theorem no_notification_after_failed_bind (evs : list event) :
  notifications (lifetime no_local_address evs) = 0%nat /\
  is_connected (lifetime no_local_address evs) = false.
Proof.
  destruct (never_notified_after_failed_bind no_local_address evs eq_refl)
    as (Hc & _ & _ & _ & Hconn).
  rewrite <- length_causes. simpl in Hc. rewrite Hc.
  split; [reflexivity|exact Hconn].
Qed.

(** C5.  When the local address query fails at bind time the endpoint is
    disconnected at once with that failure recorded as the cause, the
    receive loop never starts and no message is ever delivered; but,
    against the claim, the handler is never told: in every continuation
    the list of causes given to [receive_disconnect] stays empty. *)
Theorem failed_bind_records_cause_but_never_notifies (evs : list event) :
  let s0 := lifetime no_local_address [] in
  let s := lifetime no_local_address evs in
  m_local_disconnect s0 = true /\
  m_disconnect_error s0 = enobufs /\
  is_connected s0 = false /\
  reads s = [] /\
  delivered s = [] /\
  causes s = [].
Proof.
  destruct (bind_local_failure no_local_address eq_refl)
    as (Hl & He & Hconn & _).
  destruct (never_notified_after_failed_bind no_local_address evs eq_refl)
    as (Hc & Hd & Hr & _).
  repeat split; assumption.
Qed.

(** ** Read completions that end the loop *)

Lemma completed_spec (s : NetworkClient) (callback : receive_handler_t)
    (got : list byte) :
  let x := completed s callback got in
  outstanding x = None /\
  effects x = effects s /\
  m_disconnect_handled x = m_disconnect_handled s /\
  m_local_disconnect x = m_local_disconnect s /\
  m_disconnect_error x = m_disconnect_error s /\
  is_connected x = is_connected s /\
  m_data_size x = m_data_size s /\
  m_is_data x = m_is_data s /\
  m_ssl_enabled x = m_ssl_enabled s.
Proof.
  unfold completed, is_connected. destruct callback; simpl;
    repeat split; reflexivity.
Qed.

(** A read of [len] bytes that is handed fewer than [len] reports a count
    different from [len]. *)
Lemma short_count (len : Z) (data : list byte) :
  Z.of_nat (length data) < len ->
  negb (Z.of_nat (length (firstn (Z.to_nat len) data)) =? len) = true.
Proof.
  intros H. rewrite length_firstn. apply negb_true_iff, Z.eqb_neq. lia.
Qed.

(** A completion that reports an error, or fewer bytes than asked for,
    goes to [handle_disconnect] (with [EPIPE] for the short read).  On a
    bound endpoint with a read outstanding this is the first call: the
    handler is notified, the socket is closed, and no read is started. *)
Lemma completion_finalizes (s : NetworkClient) (callback : receive_handler_t)
    (len : Z) (ec : error_code) (data : list byte)
    (throws : option error_code) :
  well_formed s -> outstanding s = Some (callback, len) ->
  ec_set ec = true \/ Z.of_nat (length data) < len ->
  let s' := step s (ReadCompletes ec data throws) in
  let trigger := if ec_set ec then ec else epipe in
  outstanding s' = None /\
  m_disconnect_handled s' = true /\
  is_connected s' = false /\
  effects s'
  = effects s ++ (if is_connected s then [Close] else [])
      ++ [ReceiveDisconnect (cause_given s trigger)] /\
  m_local_disconnect s' = m_local_disconnect s /\
  m_disconnect_error s' = m_disconnect_error s.
Proof.
  intros Hwf Ho Hfail.
  destruct (wf_outstanding _ Hwf _ _ Ho) as [Hh Hnext].
  set (got := firstn (Z.to_nat len) data).
  destruct (completed_spec s callback got)
    as (Hxo & Hxe & Hxh & Hxl & Hxc & Hxconn & Hxds & _).
  assert (Hstep : step s (ReadCompletes ec data throws)
                  = handle_disconnect (completed s callback got)
                      (if ec_set ec then ec else epipe)).
  { simpl. rewrite Ho. fold got.
    unfold next_read in Hnext.
    destruct (m_is_data s); injection Hnext as -> ->;
      unfold receive_size, receive_data;
      destruct (ec_set ec); try reflexivity;
      destruct Hfail as [Hf|Hf]; try discriminate;
      rewrite ?Hxds; unfold got; rewrite (short_count _ _ Hf);
      reflexivity. }
  simpl. simpl in Hstep. rewrite Hstep.
  rewrite <- Hxh in Hh.
  destruct (handle_disconnect_first _ (if ec_set ec then ec else epipe) Hh)
    as (Hh' & Hconn' & He & Ho' & Hl & Hc & _).
  unfold cause_given.
  rewrite Ho', Hxo, Hh', Hconn', He, Hxe, Hxconn, Hl, Hxl, Hc, Hxc.
  repeat split; reflexivity.
Qed.

(** Nothing has reached [receive_disconnect] while a read is outstanding. *)
Lemma no_cause_while_reading (s : NetworkClient) :
  well_formed s -> outstanding s <> None -> causes s = [].
Proof.
  intros Hwf Ho.
  destruct (outstanding s) as [[callback len]|] eqn:E; [|congruence].
  destruct (wf_outstanding _ Hwf _ _ E) as [Hh _].
  pose proof (wf_notifications _ Hwf) as Hn. rewrite Hh in Hn.
  rewrite <- length_causes in Hn.
  destruct (causes s); [reflexivity|discriminate].
Qed.

Lemma causes_of_finalize (closing : bool) (ec : error_code) :
  causes_of ((if closing then [Close] else []) ++ [ReceiveDisconnect ec])
  = [ec].
Proof. destruct closing; reflexivity. Qed.

(** A second call changes nothing, whatever cause it brings. *)
Lemma handle_disconnect_idempotent (s : NetworkClient) (ec ec' : error_code) :
  handle_disconnect (handle_disconnect s ec) ec' = handle_disconnect s ec.
Proof.
  destruct (m_disconnect_handled s) eqn:Hh.
  - rewrite (handle_disconnect_again s ec Hh).
    apply handle_disconnect_again, Hh.
  - apply handle_disconnect_again.
    apply (handle_disconnect_first s ec Hh).
Qed.

(** ** When the loop has started, its end is the notification *)

(** A completion handler either finalizes or starts the next read, as long
    as starting a read does not throw. *)
Lemma handler_finalizes_or_reads (x : NetworkClient)
    (callback : receive_handler_t) (ec : error_code) (n : Z) :
  m_disconnect_handled x = false ->
  let r := match callback with
           | on_receive_size => receive_size x ec n None
           | on_receive_data => receive_data x ec n None
           end in
  outstanding r = None -> m_disconnect_handled r = true.
Proof.
  intros Hh.
  assert (Hfin : forall e, m_disconnect_handled (handle_disconnect x e) = true)
    by (intros e; apply (handle_disconnect_first x e Hh)).
  assert (Hnext : forall y, outstanding (async_receive y None) <> None).
  { intros y H. destruct (async_receive_issued y) as (Ho & _).
    simpl in Ho. congruence. }
  destruct callback; simpl; unfold receive_size, receive_data;
    destruct (ec_set ec); try (intros _; apply Hfin);
    match goal with
    | |- context [negb ?c] =>
        destruct (negb c); [intros _; apply Hfin|]
    end;
    intros H; exfalso; exact (Hnext _ H).
Qed.

Lemma loop_end_step (s : NetworkClient) (ev : event) :
  well_formed s ->
  (forall ec data err, ev <> ReadCompletes ec data (Some err)) ->
  (outstanding s = None -> m_disconnect_handled s = true) ->
  outstanding (step s ev) = None -> m_disconnect_handled (step s ev) = true.
Proof.
  intros Hwf Hev Hs.
  assert (Hd : forall ec, outstanding (disconnect s ec) = None ->
                          m_disconnect_handled (disconnect s ec) = true).
  { intros ec. destruct (disconnect_spec s ec)
      as (_ & _ & _ & _ & Hh & Ho & _).
    rewrite Hh, Ho. exact Hs. }
  destruct ev as [ec|dg throws|ec data throws]; cbn [step].
  - apply Hd.
  - unfold send_datagram, socket_write. destruct throws as [err|].
    + apply Hd.
    + exact Hs.
  - destruct throws as [err|]; [exfalso; exact (Hev ec data err eq_refl)|].
    destruct (outstanding s) as [[callback len]|] eqn:Ho;
      [|intros _; apply Hs; reflexivity].
    destruct (wf_outstanding _ Hwf _ _ Ho) as [Hh _].
    set (got := firstn (Z.to_nat len) data).
    assert (Hx : m_disconnect_handled (completed s callback got) = false).
    { destruct (completed_spec s callback got) as (_ & _ & Hxh & _).
      congruence. }
    pose proof (handler_finalizes_or_reads _ callback ec
                  (Z.of_nat (length got)) Hx) as H.
    destruct callback; exact H.
Qed.

(** X15.  On an endpoint whose addresses were found and whose reads never
    throw on initiation, the receive loop ends only through
    [handle_disconnect]: once no read is outstanding the handler has been
    notified, exactly once. *)
Lemma notified_once_when_loop_ends (b : binding) (evs : list event) :
  ec_set (snd (bind_local b)) = false -> bind_throws b = None ->
  (forall ec data err, ~ In (ReadCompletes ec data (Some err)) evs) ->
  outstanding (lifetime b evs) = None ->
  notifications (lifetime b evs) = 1%nat.
Proof.
  intros Hec Hthrows Hevs Ho.
  apply notified_iff_handled. revert Ho.
  assert (Hstart : outstanding (lifetime b []) = None ->
                   m_disconnect_handled (lifetime b []) = true).
  { destruct b as [secure sock [remote rec] [local lec] throws].
    simpl in Hec, Hthrows. subst throws.
    unfold lifetime, bind, initialize_ssl, initialize, determine_endpoints.
    destruct secure; simpl; rewrite Hec; simpl; discriminate. }
  induction evs as [|ev evs IH] using rev_ind; [exact Hstart|].
  rewrite lifetime_app. simpl.
  apply loop_end_step.
  - apply wf_lifetime.
  - intros ec data err ->. apply (Hevs ec data err).
    apply in_or_app. right. left. reflexivity.
  - apply IH. intros ec data err Hin. apply (Hevs ec data err).
    apply in_or_app. left. exact Hin.
Qed.

(** ** Read completions that carry the loop on *)

(** A full prefix arrives: its little-endian value becomes the expected
    length, the payload buffer is replaced when that value exceeds the
    previous expected length, and the payload read is started. *)
Lemma prefix_accepted (s : NetworkClient) (len : Z) (p : list byte) :
  well_formed s -> outstanding s = Some (on_receive_size, len) ->
  length p = dgsize_bytes ->
  let s' := step s (ReadCompletes no_error p None) in
  m_data_size s' = le_combine p /\
  m_data_buf s'
  = (if m_data_size s <? le_combine p
     then new_array (le_combine p) else m_data_buf s) /\
  outstanding s' = Some (on_receive_data, le_combine p) /\
  effects s'
  = effects s ++ [AsyncRead (m_ssl_enabled s) on_receive_data (le_combine p)] /\
  m_ssl_enabled s' = m_ssl_enabled s /\
  m_disconnect_handled s' = m_disconnect_handled s /\
  m_local_disconnect s' = m_local_disconnect s /\
  m_disconnect_error s' = m_disconnect_error s /\
  is_connected s' = is_connected s.
Proof.
  intros Hwf Ho Hlen.
  destruct (wf_outstanding _ Hwf _ _ Ho) as [_ Hnext].
  pose proof (wf_size_buf _ Hwf) as Hsb.
  unfold next_read in Hnext.
  destruct (m_is_data s) eqn:Hisd; [discriminate|].
  injection Hnext as ->.
  simpl. rewrite Ho. unfold sizeof_dgsize_t. rewrite Nat2Z.id.
  rewrite firstn_all2 by lia.
  unfold completed. simpl.
  rewrite store_full by congruence.
  unfold receive_size. simpl.
  rewrite Hlen. unfold sizeof_dgsize_t. rewrite Z.eqb_refl. simpl.
  rewrite swap_le_object_value by exact Hlen.
  unfold async_receive, socket_read, is_connected.
  destruct (m_data_size s <? le_combine p); simpl; repeat split; reflexivity.
Qed.

(** The whole payload arrives: a datagram with exactly those bytes is
    handed to the handler, and then the next prefix read is started. *)
Lemma payload_accepted (s : NetworkClient) (len : Z) (data : list byte) :
  well_formed s -> outstanding s = Some (on_receive_data, len) ->
  Z.of_nat (length data) = len ->
  let s' := step s (ReadCompletes no_error data None) in
  effects s'
  = effects s ++ [ReceiveDatagram data;
                  AsyncRead (m_ssl_enabled s) on_receive_size sizeof_dgsize_t] /\
  outstanding s' = Some (on_receive_size, sizeof_dgsize_t) /\
  m_data_size s' = m_data_size s /\
  capacity s' = capacity s /\
  m_ssl_enabled s' = m_ssl_enabled s /\
  m_disconnect_handled s' = m_disconnect_handled s /\
  m_local_disconnect s' = m_local_disconnect s /\
  m_disconnect_error s' = m_disconnect_error s /\
  is_connected s' = is_connected s.
Proof.
  intros Hwf Ho Hlen.
  destruct (wf_outstanding _ Hwf _ _ Ho) as [_ Hnext].
  pose proof (wf_capacity _ Hwf) as Hcap. unfold capacity in Hcap.
  unfold next_read in Hnext.
  destruct (m_is_data s) eqn:Hisd; [|discriminate].
  injection Hnext as Hds. subst len.
  assert (Hn : Z.to_nat (m_data_size s) = length data) by lia.
  simpl. rewrite Ho, Hds, Hn, firstn_all.
  unfold completed. simpl.
  unfold receive_data, Datagram_create. simpl.
  rewrite Hds, Z.eqb_refl, Hn, firstn_store. simpl.
  unfold async_receive, socket_read, receive_datagram, is_connected, capacity.
  simpl. rewrite <- app_assoc.
  rewrite length_store by lia.
  repeat split; reflexivity.
Qed.

(** One whole message: the payload read is started with the decoded length,
    the datagram is handed over, and only then is the next prefix read
    started. *)
Lemma message_received (s : NetworkClient) (len : Z) (m : list byte) :
  well_formed s -> outstanding s = Some (on_receive_size, len) ->
  representable m ->
  let n := Z.of_nat (length m) in
  let s' := receive_message s m in
  effects s'
  = effects s ++ [AsyncRead (m_ssl_enabled s) on_receive_data n;
                  ReceiveDatagram m;
                  AsyncRead (m_ssl_enabled s) on_receive_size sizeof_dgsize_t] /\
  outstanding s' = Some (on_receive_size, sizeof_dgsize_t) /\
  m_data_size s' = n /\
  capacity s' = (if m_data_size s <? n then n else capacity s) /\
  m_ssl_enabled s' = m_ssl_enabled s /\
  m_disconnect_handled s' = m_disconnect_handled s /\
  m_local_disconnect s' = m_local_disconnect s /\
  m_disconnect_error s' = m_disconnect_error s /\
  is_connected s' = is_connected s.
Proof.
  intros Hwf Ho Hrep. unfold representable in Hrep.
  set (p := le_split dgsize_bytes (Z.of_nat (length m))).
  assert (Hp : length p = dgsize_bytes) by apply length_le_split.
  assert (Hv : le_combine p = Z.of_nat (length m)).
  { unfold p. rewrite le_combine_prefix. apply to_dgsize_t_small. lia. }
  destruct (prefix_accepted s len p Hwf Ho Hp)
    as (Hds & Hdb & Ho1 & He1 & Hssl1 & Hh1 & Hl1 & Hc1 & Hconn1).
  rewrite Hv in *.
  pose proof (wf_step s (ReadCompletes no_error p None) Hwf) as Hwf1.
  destruct (payload_accepted _ _ m Hwf1 Ho1 eq_refl)
    as (He2 & Ho2 & Hds2 & Hcap2 & Hssl2 & Hh2 & Hl2 & Hc2 & Hconn2).
  unfold receive_message. fold p. simpl. simpl in *.
  rewrite He2, He1, Ho2, Hds2, Hds, Hcap2, Hssl2, Hssl1, Hh2, Hh1, Hl2, Hl1,
    Hc2, Hc1, Hconn2, Hconn1, <- app_assoc.
  repeat split; try reflexivity.
  unfold capacity. rewrite Hdb.
  destruct (m_data_size s <? Z.of_nat (length m)); [|reflexivity].
  unfold new_array. rewrite repeat_length. lia.
Qed.

Lemma wf_receive_message (s : NetworkClient) (m : list byte) :
  well_formed s -> well_formed (receive_message s m).
Proof. intros Hwf. apply wf_run, Hwf. Qed.

(** Any number of messages: they reach the handler in arrival order, and
    nothing else does. *)
Lemma messages_received (msgs : list (list byte)) :
  forall s, well_formed s ->
  outstanding s = Some (on_receive_size, sizeof_dgsize_t) ->
  Forall representable msgs ->
  let s' := receive_messages s msgs in
  well_formed s' /\
  outstanding s' = Some (on_receive_size, sizeof_dgsize_t) /\
  delivered s' = delivered s ++ msgs /\
  causes s' = causes s.
Proof.
  induction msgs as [|m msgs IH]; intros s Hwf Ho Hall;
    unfold receive_messages; cbn [fold_left].
  - rewrite app_nil_r.
    split; [exact Hwf|]. split; [exact Ho|]. split; reflexivity.
  - inversion Hall as [|? ? Hm Hrest]; subst.
    destruct (message_received s _ m Hwf Ho Hm) as (He & Ho1 & _).
    destruct (IH _ (wf_receive_message s m Hwf) Ho1 Hrest)
      as (Hwf' & Ho' & Hd' & Hc').
    unfold receive_messages in Hwf', Ho', Hd', Hc'.
    rewrite Hd', Hc', (delivered_effects _ _ _ He), (causes_effects _ _ _ He).
    simpl. rewrite <- app_assoc, app_nil_r.
    split; [exact Hwf'|]. split; [exact Ho'|]. split; reflexivity.
Qed.

(** ** The reactor feeding a stream *)

(** One turn of the reactor. *)
Lemma pump_step (fuel : nat) (s : NetworkClient)
    (callback : receive_handler_t) (len : Z) (stream : list byte) :
  outstanding s = Some (callback, len) ->
  len <= Z.of_nat (length stream) ->
  pump (S fuel) s stream
  = pump fuel
      (step s (ReadCompletes no_error (firstn (Z.to_nat len) stream) None))
      (skipn (Z.to_nat len) stream).
Proof.
  intros Ho Hlen. cbn [pump]. rewrite Ho.
  destruct (Z.ltb_spec (Z.of_nat (length stream)) len); [lia|reflexivity].
Qed.

Lemma firstn_length_app (a b : list byte) (n : nat) :
  n = length a -> firstn n (a ++ b) = a.
Proof.
  intros ->. rewrite firstn_app, Nat.sub_diag, firstn_all. simpl.
  apply app_nil_r.
Qed.

Lemma skipn_length_app (a b : list byte) (n : nat) :
  n = length a -> skipn n (a ++ b) = b.
Proof.
  intros ->. rewrite skipn_app, Nat.sub_diag, skipn_all. reflexivity.
Qed.

(** A frame at the head of the stream is consumed by two completions. *)
Lemma pump_frame (fuel : nat) (s : NetworkClient) (len : Z)
    (m rest : list byte) :
  well_formed s -> outstanding s = Some (on_receive_size, len) ->
  representable m ->
  pump (S (S fuel)) s (frame m ++ rest) = pump fuel (receive_message s m) rest.
Proof.
  intros Hwf Ho Hrep.
  set (p := le_split dgsize_bytes (Z.of_nat (length m))).
  assert (Hp : length p = dgsize_bytes) by apply length_le_split.
  assert (Hv : le_combine p = Z.of_nat (length m)).
  { unfold p. rewrite le_combine_prefix. apply to_dgsize_t_small.
    unfold representable in Hrep. lia. }
  destruct (wf_outstanding _ Hwf _ _ Ho) as [_ Hnext].
  unfold next_read in Hnext.
  destruct (m_is_data s) eqn:Hisd; [discriminate|].
  injection Hnext as ->.
  destruct (prefix_accepted s _ p Hwf Ho Hp) as (_ & _ & Ho1 & _).
  rewrite Hv in Ho1.
  unfold frame. fold p. rewrite <- app_assoc.
  rewrite (pump_step _ _ _ _ _ Ho)
    by (rewrite length_app; unfold sizeof_dgsize_t; lia).
  rewrite firstn_length_app, skipn_length_app
    by (unfold sizeof_dgsize_t; lia).
  rewrite (pump_step _ _ _ _ _ Ho1) by (rewrite length_app; lia).
  rewrite firstn_length_app, skipn_length_app by lia.
  reflexivity.
Qed.

Section Pump.

(** [sizeof] is never zero. *)
Hypothesis dgsize_nonempty : (0 < dgsize_bytes)%nat.

(** With a prefix read outstanding and nothing in the stream, the read
    stays outstanding. *)
Lemma pump_starved (fuel : nat) (s : NetworkClient) :
  outstanding s = Some (on_receive_size, sizeof_dgsize_t) ->
  pump fuel s [] = (s, []).
Proof.
  intros Ho. destruct fuel; simpl; [reflexivity|].
  rewrite Ho. unfold sizeof_dgsize_t.
  destruct (Z.ltb_spec 0 (Z.of_nat dgsize_bytes)); [reflexivity|lia].
Qed.

(** A stream of whole frames is consumed frame by frame, two turns each. *)
Lemma pump_frames (msgs : list (list byte)) :
  forall s fuel, well_formed s ->
  outstanding s = Some (on_receive_size, sizeof_dgsize_t) ->
  Forall representable msgs ->
  (2 * length msgs <= fuel)%nat ->
  pump fuel s (flat_map frame msgs) = (receive_messages s msgs, []).
Proof.
  induction msgs as [|m msgs IH]; intros s fuel Hwf Ho Hall Hfuel.
  - apply pump_starved, Ho.
  - inversion Hall as [|? ? Hm Hrest]; subst.
    simpl in Hfuel.
    do 2 (destruct fuel as [|fuel]; [lia|]).
    destruct (message_received s _ m Hwf Ho Hm) as (_ & Ho1 & _).
    cbn [flat_map]. rewrite (pump_frame _ _ _ _ _ Hwf Ho Hm).
    apply IH; try assumption.
    + apply wf_receive_message, Hwf.
    + lia.
Qed.

(** C8.  Three messages arrive back to back on an endpoint that is waiting
    for a prefix.  Given enough turns the reactor consumes the whole stream,
    and the endpoint's effects are, in this order: payload read, delivery
    of [M1], next prefix read, payload read, delivery of [M2], next prefix
    read, payload read, delivery of [M3], next prefix read.  Each delivery
    comes before the read that follows it, and no disconnect notification
    occurs. *)
Theorem messages_delivered_in_order (b : binding) (evs : list event)
    (len : Z) (M1 M2 M3 : list byte) (fuel : nat) :
  outstanding (lifetime b evs) = Some (on_receive_size, len) ->
  representable M1 -> representable M2 -> representable M3 ->
  (6 <= fuel)%nat ->
  let s := lifetime b evs in
  let s' := receive_messages s [M1; M2; M3] in
  let ssl := m_ssl_enabled s in
  let size_t := sizeof_dgsize_t in
  pump fuel s (frame M1 ++ frame M2 ++ frame M3) = (s', []) /\
  effects s'
  = effects s
      ++ [AsyncRead ssl on_receive_data (Z.of_nat (length M1));
          ReceiveDatagram M1;
          AsyncRead ssl on_receive_size size_t;
          AsyncRead ssl on_receive_data (Z.of_nat (length M2));
          ReceiveDatagram M2;
          AsyncRead ssl on_receive_size size_t;
          AsyncRead ssl on_receive_data (Z.of_nat (length M3));
          ReceiveDatagram M3;
          AsyncRead ssl on_receive_size size_t] /\
  delivered s' = delivered s ++ [M1; M2; M3] /\
  causes s' = [].
Proof.
  intros Ho H1 H2 H3 Hfuel s s' ssl size_t.
  pose proof (wf_lifetime b evs) as Hwf. fold s in Hwf, Ho.
  destruct (message_received s len M1 Hwf Ho H1)
    as (He1 & Ho1 & _ & _ & Hssl1 & _).
  pose proof (wf_receive_message s M1 Hwf) as Hwf1.
  destruct (message_received _ _ M2 Hwf1 Ho1 H2)
    as (He2 & Ho2 & _ & _ & Hssl2 & _).
  pose proof (wf_receive_message _ M2 Hwf1) as Hwf2.
  destruct (message_received _ _ M3 Hwf2 Ho2 H3)
    as (He3 & Ho3 & _ & _ & Hssl3 & _).
  assert (He : effects s'
    = effects s
      ++ [AsyncRead ssl on_receive_data (Z.of_nat (length M1));
          ReceiveDatagram M1;
          AsyncRead ssl on_receive_size size_t;
          AsyncRead ssl on_receive_data (Z.of_nat (length M2));
          ReceiveDatagram M2;
          AsyncRead ssl on_receive_size size_t;
          AsyncRead ssl on_receive_data (Z.of_nat (length M3));
          ReceiveDatagram M3;
          AsyncRead ssl on_receive_size size_t]).
  { unfold s', receive_messages. cbn [fold_left].
    rewrite He3, He2, He1, Hssl2, Hssl1, <- !app_assoc. reflexivity. }
  repeat split.
  - do 6 (destruct fuel as [|fuel]; [lia|]).
    rewrite (pump_frame _ _ _ _ _ Hwf Ho H1).
    rewrite (pump_frame _ _ _ _ _ Hwf1 Ho1 H2).
    rewrite <- (app_nil_r (frame M3)).
    rewrite (pump_frame _ _ _ _ _ Hwf2 Ho2 H3).
    apply pump_starved. exact Ho3.
  - exact He.
  - rewrite (delivered_effects _ _ _ He). reflexivity.
  - rewrite (causes_effects _ _ _ He).
    rewrite (no_cause_while_reading s Hwf) by congruence. reflexivity.
Qed.

(** C10.  A prefix that decodes to zero is a message like any other: a
    zero-byte payload read is started, its completion hands an empty
    datagram to the handler, and the next prefix read is started.  The
    reactor needs no further bytes from the stream for this, and nothing
    is finalized. *)
Theorem empty_message_is_delivered (b : binding) (evs : list event)
    (len : Z) (p : list byte) (fuel : nat) :
  outstanding (lifetime b evs) = Some (on_receive_size, len) ->
  length p = dgsize_bytes -> le_combine p = 0 ->
  (2 <= fuel)%nat ->
  let s := lifetime b evs in
  let s' := run s [ReadCompletes no_error p None;
                   ReadCompletes no_error [] None] in
  let ssl := m_ssl_enabled s in
  pump fuel s p = (s', []) /\
  effects s'
  = effects s ++ [AsyncRead ssl on_receive_data 0;
                  ReceiveDatagram [];
                  AsyncRead ssl on_receive_size sizeof_dgsize_t] /\
  outstanding s' = Some (on_receive_size, sizeof_dgsize_t) /\
  m_disconnect_handled s' = false /\
  is_connected s' = is_connected s.
Proof.
  intros Ho Hp Hzero Hfuel s s' ssl.
  pose proof (wf_lifetime b evs) as Hwf. fold s in Hwf, Ho.
  assert (Hpe : p = le_split dgsize_bytes (Z.of_nat (length (@nil byte)))).
  { rewrite <- (split_le_combine p), Hp, Hzero. reflexivity. }
  assert (Hrep : representable []).
  { unfold representable. simpl. apply Z.pow_pos_nonneg; unfold sizeof_dgsize_t; lia. }
  assert (Hs' : s' = receive_message s []).
  { unfold s', receive_message. rewrite <- Hpe. reflexivity. }
  destruct (message_received s len [] Hwf Ho Hrep)
    as (He & Ho' & _ & _ & _ & Hh & _ & _ & Hconn).
  destruct (wf_outstanding _ Hwf _ _ Ho) as [Hh0 _].
  rewrite Hs'. repeat split.
  - do 2 (destruct fuel as [|fuel]; [lia|]).
    replace p with (frame [] ++ []) at 1
      by (unfold frame; rewrite <- Hpe, !app_nil_r; reflexivity).
    rewrite (pump_frame _ _ _ _ _ Hwf Ho Hrep).
    apply pump_starved. exact Ho'.
  - exact He.
  - exact Ho'.
  - rewrite Hh. exact Hh0.
  - exact Hconn.
Qed.

End Pump.

(** ** The payload buffer *)

Lemma handle_disconnect_keeps_buffer (s : NetworkClient) (ec : error_code) :
  m_data_buf (handle_disconnect s ec) = m_data_buf s.
Proof.
  destruct (m_disconnect_handled s) eqn:Hh.
  - rewrite handle_disconnect_again by exact Hh. reflexivity.
  - apply (handle_disconnect_first s ec Hh).
Qed.

Lemma async_receive_keeps_buffer (s : NetworkClient)
    (throws : option error_code) :
  m_data_buf (async_receive s throws) = m_data_buf s.
Proof.
  destruct throws as [err|].
  - rewrite async_receive_throws. apply (disconnect_spec s err).
  - apply (async_receive_issued s).
Qed.

Lemma receive_data_keeps_buffer (s : NetworkClient) (ec : error_code)
    (n : Z) (throws : option error_code) :
  m_data_buf (receive_data s ec n throws) = m_data_buf s.
Proof.
  unfold receive_data.
  destruct (ec_set ec); [apply handle_disconnect_keeps_buffer|].
  destruct (negb (n =? m_data_size s));
    [apply handle_disconnect_keeps_buffer|].
  rewrite async_receive_keeps_buffer. reflexivity.
Qed.

(** C9.  Whenever a payload read is outstanding, the count it was started
    with is at most the size of the array behind [m_data_buf]; so whatever
    the completion transfers is stored inside the array, whose size is the
    same afterwards. *)
Theorem payload_read_fits_buffer (b : binding) (evs : list event) (len : Z) :
  outstanding (lifetime b evs) = Some (on_receive_data, len) ->
  let s := lifetime b evs in
  len = m_data_size s /\
  0 <= len <= capacity s /\
  forall ec data throws,
    capacity (step s (ReadCompletes ec data throws)) = capacity s.
Proof.
  intros Ho s. fold s in Ho.
  pose proof (wf_lifetime b evs) as Hwf. fold s in Hwf.
  destruct (wf_outstanding _ Hwf _ _ Ho) as [_ Hnext].
  pose proof (wf_capacity _ Hwf) as Hcap.
  unfold next_read in Hnext.
  destruct (m_is_data s); [|discriminate].
  injection Hnext as ->.
  split; [reflexivity|]. split; [exact Hcap|].
  intros ec data throws. simpl. rewrite Ho.
  unfold capacity in *. rewrite receive_data_keeps_buffer.
  unfold completed. simpl.
  pose proof (length_firstn_le (Z.to_nat (m_data_size s)) data).
  rewrite length_store; lia.
Qed.

(** C2, as the code has it.  The buffer is replaced exactly when the
    decoded length exceeds the previous expected length [m_data_size] (not
    the capacity), and then its capacity is exactly the decoded length;
    otherwise it is left alone.  Either way the capacity is at least the
    length of the message being received, and after a message of length
    [L1] followed by a shorter one the capacity is still at least [L1]. *)
Theorem capacity_follows_previous_length (b : binding) (evs : list event)
    (len : Z) :
  outstanding (lifetime b evs) = Some (on_receive_size, len) ->
  let s := lifetime b evs in
  (forall m, representable m ->
     let n := Z.of_nat (length m) in
     let s' := receive_message s m in
     capacity s' = (if m_data_size s <? n then n else capacity s) /\
     m_data_size s' = n /\
     n <= capacity s') /\
  (forall M1 M2, representable M1 ->
     Z.of_nat (length M2) < Z.of_nat (length M1) ->
     Z.of_nat (length M1) <= capacity (receive_messages s [M1; M2]) /\
     capacity (receive_messages s [M1; M2]) = capacity (receive_message s M1)).
Proof.
  intros Ho s. fold s in Ho.
  pose proof (wf_lifetime b evs) as Hwf. fold s in Hwf.
  assert (Hone : forall m, representable m ->
     capacity (receive_message s m)
     = (if m_data_size s <? Z.of_nat (length m)
        then Z.of_nat (length m) else capacity s) /\
     m_data_size (receive_message s m) = Z.of_nat (length m) /\
     Z.of_nat (length m) <= capacity (receive_message s m)).
  { intros m Hrep.
    destruct (message_received s len m Hwf Ho Hrep)
      as (_ & _ & Hds & Hcap & _).
    split; [exact Hcap|]. split; [exact Hds|].
    rewrite <- Hds. apply (wf_capacity _ (wf_receive_message s m Hwf)). }
  split; [exact Hone|].
  intros M1 M2 Hrep1 Hshort.
  destruct (Hone M1 Hrep1) as (_ & Hds1 & Hle1).
  destruct (message_received s len M1 Hwf Ho Hrep1) as (_ & Ho1 & _).
  assert (Hrep2 : representable M2) by (unfold representable in *; lia).
  destruct (message_received _ _ M2 (wf_receive_message s M1 Hwf) Ho1 Hrep2)
    as (_ & _ & _ & Hcap2 & _).
  unfold receive_messages. cbn [fold_left].
  rewrite Hcap2, Hds1.
  destruct (Z.ltb_spec (Z.of_nat (length M1)) (Z.of_nat (length M2)));
    [lia|]. split; [exact Hle1|reflexivity].
Qed.

(** ** Short reads and I/O failures *)

Lemma finalize_adds_no_read (closing : bool) (ec : error_code) :
  filter is_read ((if closing then [Close] else []) ++ [ReceiveDisconnect ec])
  = [].
Proof. destruct closing; reflexivity. Qed.

Lemma finalize_adds_no_delivery (closing : bool) (ec : error_code) :
  delivered_of ((if closing then [Close] else []) ++ [ReceiveDisconnect ec])
  = [].
Proof. destruct closing; reflexivity. Qed.

(** C7.  In either receive state (whichever callback the outstanding read
    has), when the read completes without an error code but with fewer
    bytes than were asked for, the endpoint finalizes with [EPIPE] as the
    triggering cause.  The handler is notified once, with the cause
    [handle_disconnect] picks for that trigger: [EPIPE] itself whenever no
    local disconnect is on record.  The socket is closed, no read is
    outstanding, and in every continuation (whatever arrives later,
    whatever the consumer calls) no read is started and no datagram is
    delivered. *)
Theorem short_read_disconnects (b : binding) (evs : list event)
    (callback : receive_handler_t) (len : Z) (data : list byte)
    (throws : option error_code) :
  outstanding (lifetime b evs) = Some (callback, len) ->
  Z.of_nat (length data) < len ->
  let s := lifetime b evs in
  let s' := step s (ReadCompletes no_error data throws) in
  causes s' = [cause_given s epipe] /\
  (m_local_disconnect s = false -> causes s' = [epipe]) /\
  is_connected s' = false /\
  outstanding s' = None /\
  reads s' = reads s /\
  delivered s' = delivered s /\
  forall later,
    reads (run s' later) = reads s /\
    delivered (run s' later) = delivered s /\
    causes (run s' later) = causes s'.
Proof.
  intros Ho Hshort s s'. fold s in Ho.
  pose proof (wf_lifetime b evs) as Hwf. fold s in Hwf.
  destruct (completion_finalizes s callback len no_error data throws
              Hwf Ho (or_intror Hshort))
    as (Ho' & _ & Hconn & He & _).
  fold s' in Ho', Hconn, He. simpl in He.
  assert (Hc : causes s' = [cause_given s epipe]).
  { rewrite (causes_effects _ _ _ He), causes_of_finalize.
    rewrite (no_cause_while_reading s Hwf) by congruence. reflexivity. }
  assert (Hr : reads s' = reads s).
  { rewrite (reads_effects _ _ _ He), finalize_adds_no_read.
    apply app_nil_r. }
  assert (Hd : delivered s' = delivered s).
  { rewrite (delivered_effects _ _ _ He), finalize_adds_no_delivery.
    apply app_nil_r. }
  repeat split; try assumption.
  - intros Hl. rewrite Hc. unfold cause_given. rewrite Hl. reflexivity.
  - destruct (idle_run later s' Ho') as (_ & _ & _ & Hr' & _). congruence.
  - destruct (idle_run later s' Ho') as (_ & _ & Hd' & _). congruence.
  - destruct (idle_run later s' Ho') as (_ & Hc' & _). exact Hc'.
Qed.

(** C6, as the code has it.  On an endpoint with a read outstanding: a
    read that completes with an error goes to [handle_disconnect] without
    touching the "locally initiated" flag, and with the flag clear the
    handler receives that error.  A write that fails does not go there:
    [send_datagram] calls [disconnect], which sets [m_local_disconnect],
    records the write error and closes the socket without notifying
    anyone; the handler receives the recorded write error when the
    outstanding read then completes with an error. *)
Theorem io_failure_routing (b : binding) (evs : list event)
    (callback : receive_handler_t) (len : Z) :
  outstanding (lifetime b evs) = Some (callback, len) ->
  let s := lifetime b evs in
  (forall ec data throws, ec_set ec = true ->
     let s' := step s (ReadCompletes ec data throws) in
     m_local_disconnect s' = m_local_disconnect s /\
     causes s' = [cause_given s ec] /\
     (m_local_disconnect s = false -> causes s' = [ec])) /\
  (forall dg err,
     let s' := step s (CallSendDatagram dg (Some err)) in
     m_local_disconnect s' = true /\
     m_disconnect_error s' = err /\
     is_connected s' = false /\
     m_disconnect_handled s' = false /\
     causes s' = [] /\
     forall ec data throws, ec_set ec = true ->
       causes (step s' (ReadCompletes ec data throws)) = [err]).
Proof.
  intros E s. fold s in E.
  pose proof (wf_lifetime b evs) as Hwf. fold s in Hwf.
  assert (Hnone : causes s = [])
    by (apply (no_cause_while_reading s Hwf); congruence).
  destruct (wf_outstanding _ Hwf _ _ E) as [Hh _].
  split.
  - intros ec data throws Hec s'.
    destruct (completion_finalizes s callback len ec data throws
                Hwf E (or_introl Hec))
      as (_ & _ & _ & He & Hl' & _).
    fold s' in He, Hl'. simpl in He. rewrite Hec in He.
    assert (Hc : causes s' = [cause_given s ec]).
    { rewrite (causes_effects _ _ _ He), causes_of_finalize, Hnone.
      reflexivity. }
    split; [exact Hl'|]. split; [exact Hc|].
    intros Hl. rewrite Hc. unfold cause_given. rewrite Hl. reflexivity.
  - intros dg err s'.
    assert (Hs' : s' = disconnect s err) by reflexivity.
    destruct (disconnect_spec s err)
      as (Hl' & Hc' & Hconn' & He' & Hh' & Ho' & _).
    rewrite <- Hs' in Hl', Hc', Hconn', He', Hh', Ho'.
    assert (Hnone' : causes s' = []).
    { rewrite (causes_effects _ _ _ He'), Hnone. reflexivity. }
    repeat split; try assumption; try congruence.
    intros ec data throws Hec.
    assert (Hwf' : well_formed s') by (rewrite Hs'; apply wf_disconnect, Hwf).
    rewrite E in Ho'.
    destruct (completion_finalizes s' callback len ec data throws
                Hwf' Ho' (or_introl Hec))
      as (_ & _ & _ & He & _).
    rewrite (causes_effects _ _ _ He), causes_of_finalize, Hnone'.
    unfold cause_given. rewrite Hl', Hc'. reflexivity.
Qed.

(** ** Further properties *)

(** Computes a step on an explicit record, splitting on the tests the code
    makes, outermost first. *)
Ltac compute_step :=
  cbn; unfold receive_size, receive_data, completed, handle_disconnect; cbn.

Ltac split_tests :=
  compute_step;
  repeat (match goal with
          | |- context [if ?c then _ else _] => destruct c eqn:?
          end;
          compute_step).

(** A step changes neither the cached addresses nor the transport variant,
    never unbinds the socket and never reopens it. *)
Lemma step_keeps_binding (s : NetworkClient) (ev : event) :
  m_remote (step s ev) = m_remote s /\
  m_local (step s ev) = m_local s /\
  m_ssl_enabled (step s ev) = m_ssl_enabled s /\
  (m_socket s <> None -> m_socket (step s ev) <> None) /\
  (is_connected s = false -> is_connected (step s ev) = false).
Proof.
  destruct s as [sock ssl rem loc handled local_flag cause sb db ds isd o l].
  destruct sock as [[[|]]|];
  destruct ev as [ec|dg [err|]|ec data [err|]];
    try destruct o as [[[|] n]|];
    repeat split; split_tests; congruence.
Qed.

Lemma NetworkClient_ext (s t : NetworkClient) :
  m_socket s = m_socket t -> m_ssl_enabled s = m_ssl_enabled t ->
  m_remote s = m_remote t -> m_local s = m_local t ->
  m_disconnect_handled s = m_disconnect_handled t ->
  m_local_disconnect s = m_local_disconnect t ->
  m_disconnect_error s = m_disconnect_error t ->
  m_size_buf s = m_size_buf t -> m_data_buf s = m_data_buf t ->
  m_data_size s = m_data_size t -> m_is_data s = m_is_data t ->
  outstanding s = outstanding t -> effects s = effects t ->
  s = t.
Proof.
  destruct s, t; cbn; intros; subst; reflexivity.
Qed.

(** No member function reads the effect log: a step on the same object
    with another log gives the same object, with what the step emits
    appended to that log. *)
Lemma step_with_log (s : NetworkClient) (log : list effect) (ev : event) :
  step (with_log log s) ev = with_log (log ++ emitted s ev) (step s ev).
Proof.
  unfold emitted.
  destruct s as [sock ssl rem loc handled local_flag cause sb db ds isd o l].
  destruct sock as [[[|]]|];
  destruct ev as [ec|dg [err|]|ec data [err|]];
    try destruct o as [[[|] n]|];
    apply NetworkClient_ext; split_tests;
    rewrite <- ?app_assoc; cbn; rewrite ?app_nil_r; reflexivity.
Qed.

Lemma with_log_effects (s : NetworkClient) : with_log (effects s) s = s.
Proof. destruct s; reflexivity. Qed.

(** The log only grows. *)
Lemma step_effects (s : NetworkClient) (ev : event) :
  effects (step s ev) = effects s ++ emitted s ev.
Proof.
  rewrite <- (with_log_effects s) at 1. rewrite step_with_log. reflexivity.
Qed.

Lemma run_effects (evs : list event) (s : NetworkClient) :
  exists added, effects (run s evs) = effects s ++ added.
Proof.
  revert s. induction evs as [|ev evs IH]; intros s; simpl.
  - exists []. symmetry. apply app_nil_r.
  - destruct (IH (step s ev)) as [added Hadd].
    exists (emitted s ev ++ added).
    rewrite Hadd, step_effects, app_assoc. reflexivity.
Qed.

(** What a consumer call emits is never a read, a delivery or a
    notification, and it leaves the outstanding read and the notification
    flag alone. *)
Lemma call_emits_no_callback (s : NetworkClient) (ev : event) :
  is_completion ev = false ->
  filter is_read (emitted s ev) = [] /\
  delivered_of (emitted s ev) = [] /\
  causes_of (emitted s ev) = [] /\
  outstanding (step s ev) = outstanding s /\
  m_disconnect_handled (step s ev) = m_disconnect_handled s.
Proof.
  destruct s as [sock ssl rem loc handled local_flag cause sb db ds isd o l].
  destruct ev as [ec|dg [err|]|ec data throws]; [| | |discriminate];
    intros _; unfold emitted; repeat split; reflexivity.
Qed.

(** Every read and write a step makes goes through the transport selected
    by [m_ssl_enabled]; a step starts at most one read. *)
Lemma emitted_transport (s : NetworkClient) (ev : event) :
  Forall (fun e => forall t, transport_of e = Some t -> t = m_ssl_enabled s)
    (emitted s ev) /\
  (length (filter is_read (emitted s ev)) <= 1)%nat.
Proof.
  unfold emitted.
  destruct s as [sock ssl rem loc handled local_flag cause sb db ds isd o l].
  destruct sock as [[[|]]|];
  destruct ev as [ec|dg [err|]|ec data [err|]];
    try destruct o as [[[|] n]|];
    split_tests;
    (split; [repeat constructor; cbn; congruence | cbn; lia]).
Qed.

(** Once the notification has been given the socket is closed. *)
Lemma handled_closed_step (s : NetworkClient) (ev : event) :
  (m_disconnect_handled s = true -> is_connected s = false) ->
  m_disconnect_handled (step s ev) = true -> is_connected (step s ev) = false.
Proof.
  destruct s as [sock ssl rem loc handled local_flag cause sb db ds isd o l].
  destruct sock as [[[|]]|];
  destruct ev as [ec|dg [err|]|ec data [err|]];
    try destruct o as [[[|] n]|];
    split_tests; intros H1 H2; try reflexivity;
    try (apply H1; exact H2); congruence.
Qed.

Lemma run_keeps_binding (evs : list event) (s : NetworkClient) :
  m_remote (run s evs) = m_remote s /\
  m_local (run s evs) = m_local s /\
  m_ssl_enabled (run s evs) = m_ssl_enabled s /\
  (m_socket s <> None -> m_socket (run s evs) <> None) /\
  (is_connected s = false -> is_connected (run s evs) = false).
Proof.
  revert s. induction evs as [|ev evs IH]; intros s; simpl.
  - repeat split; auto.
  - destruct (step_keeps_binding s ev) as (Hr & Hl & Hs & Hb & Hc).
    destruct (IH (step s ev)) as (Hr' & Hl' & Hs' & Hb' & Hc').
    rewrite Hr', Hl', Hs', Hr, Hl, Hs. repeat split; auto.
Qed.

(** What binding leaves behind, whether address discovery succeeds or
    not. *)
Lemma bound_state (b : binding) :
  let s := lifetime b [] in
  m_remote s = fst (bind_remote b) /\
  m_local s = fst (bind_local b) /\
  m_ssl_enabled s = bind_secure b /\
  m_socket s <> None /\
  (length (reads s) <= 1)%nat /\
  (forall e t, In e (effects s) -> transport_of e = Some t ->
               t = bind_secure b) /\
  (m_disconnect_handled s = true -> is_connected s = false) /\
  alternates on_receive_size (read_callbacks s) /\
  (forall c n, outstanding s = Some (c, n) ->
               exists l, read_callbacks s = l ++ [c]).
Proof.
  destruct b as [secure sock [remote rec] [local lec] [err|]];
    unfold lifetime, bind, initialize_ssl, initialize, determine_endpoints;
    destruct secure; cbn; destruct (ec_set lec); cbn;
    repeat split; try reflexivity; try discriminate; try lia;
    try (intros c n [= <- <-]; exists []; reflexivity);
    try (intros e t [<-|[]]; cbn; congruence);
    try (intros e t []).
Qed.

(** X1.  The addresses found at bind time are the ones [get_remote] and
    [get_local] return for the rest of the endpoint's life: no event, not
    even a disconnect, changes them. *)
Theorem addresses_are_cached (b : binding) (evs : list event) :
  get_remote (lifetime b evs) = fst (bind_remote b) /\
  get_local (lifetime b evs) = fst (bind_local b).
Proof.
  change evs with ([] ++ evs). rewrite lifetime_app.
  destruct (run_keeps_binding evs (lifetime b [])) as (Hr & Hl & _).
  destruct (bound_state b) as (Hr0 & Hl0 & _).
  unfold get_remote, get_local. rewrite Hr, Hl. split; assumption.
Qed.

(** X2.  A bound endpoint cannot be bound again: on every state an endpoint
    can reach, both [initialize] overloads throw [std::logic_error],
    whatever socket they are given and whether or not the endpoint has
    disconnected since. *)
Theorem second_bind_throws (b : binding) (evs : list event) (b' : binding) :
  bind (lifetime b evs) b' = None.
Proof.
  assert (Hs : m_socket (lifetime b evs) <> None).
  { change evs with ([] ++ evs). rewrite lifetime_app.
    apply run_keeps_binding. apply (bound_state b). }
  unfold bind, initialize_ssl, initialize.
  destruct (m_socket (lifetime b evs)); [|congruence].
  destruct (bind_secure b'); reflexivity.
Qed.

(** X3.  One transport for life: the variant chosen by the [initialize]
    overload stays selected, and every read and every write the endpoint
    ever makes goes through it. *)
Theorem one_transport_for_life (b : binding) (evs : list event) :
  m_ssl_enabled (lifetime b evs) = bind_secure b /\
  forall e t, In e (effects (lifetime b evs)) ->
    transport_of e = Some t -> t = bind_secure b.
Proof.
  induction evs as [|ev evs IH] using rev_ind.
  - destruct (bound_state b) as (_ & _ & Hs & _ & _ & He & _).
    split; assumption.
  - destruct IH as [Hs He]. rewrite lifetime_app. simpl.
    destruct (step_keeps_binding (lifetime b evs) ev) as (_ & _ & Hs' & _).
    split; [congruence|].
    intros e t Hin Ht. rewrite step_effects in Hin.
    apply in_app_or in Hin. destruct Hin as [Hin|Hin].
    + exact (He e t Hin Ht).
    + destruct (emitted_transport (lifetime b evs) ev) as [Hall _].
      rewrite Forall_forall in Hall. rewrite (Hall e Hin t Ht). exact Hs.
Qed.

(** X4.  [disconnect] closes the connection for good: in whatever state a
    bound endpoint is, after [disconnect(ec)] it reports
    [is_connected() = false], and goes on doing so whatever is called or
    completes afterwards. *)
Theorem disconnect_closes_for_good (b : binding) (evs : list event)
    (ec : error_code) (later : list event) :
  is_connected (lifetime b (evs ++ CallDisconnect ec :: later)) = false.
Proof.
  rewrite lifetime_app.
  change (run (lifetime b evs) (CallDisconnect ec :: later))
    with (run (disconnect (lifetime b evs) ec) later).
  apply run_keeps_binding. apply (disconnect_spec (lifetime b evs) ec).
Qed.

Lemma handled_closed (b : binding) (evs : list event) :
  m_disconnect_handled (lifetime b evs) = true ->
  is_connected (lifetime b evs) = false.
Proof.
  induction evs as [|ev evs IH] using rev_ind.
  - apply (bound_state b).
  - rewrite lifetime_app. simpl. apply handled_closed_step, IH.
Qed.

(** X5.  After [receive_disconnect] has been called the endpoint can be
    destroyed: the destructor's assertion [!is_connected()] holds then and
    at any later time, whatever is still called or completes in between. *)
Theorem destructor_safe_after_notification (b : binding)
    (evs later : list event) :
  notifications (lifetime b evs) = 1%nat ->
  destructor (lifetime b (evs ++ later)) = Some tt.
Proof.
  intros Hn. apply notified_iff_handled in Hn.
  pose proof (handled_closed b evs Hn) as Hc.
  rewrite lifetime_app. unfold destructor.
  destruct (run_keeps_binding later (lifetime b evs)) as (_ & _ & _ & _ & Hk).
  rewrite (Hk Hc). reflexivity.
Qed.

(** X6.  The disconnect notification is the last call the handler ever
    gets: once it has been given, no datagram is delivered, no second
    notification is given and no read is started, whatever is called or
    completes afterwards. *)
Theorem notification_is_the_last_callback (b : binding)
    (evs later : list event) :
  notifications (lifetime b evs) = 1%nat ->
  delivered (lifetime b (evs ++ later)) = delivered (lifetime b evs) /\
  causes (lifetime b (evs ++ later)) = causes (lifetime b evs) /\
  reads (lifetime b (evs ++ later)) = reads (lifetime b evs).
Proof.
  intros Hn. apply notified_iff_handled in Hn.
  assert (Ho : outstanding (lifetime b evs) = None).
  { destruct (outstanding (lifetime b evs)) as [[c n]|] eqn:E;
      [|reflexivity].
    destruct (wf_outstanding _ (wf_lifetime b evs) _ _ E) as [Hh _].
    congruence. }
  rewrite lifetime_app.
  destruct (idle_run later _ Ho) as (_ & Hc & Hd & Hr & _).
  repeat split; assumption.
Qed.

(** X7.  Reads are strictly sequential.  Only [initialize] and the
    completion of the previous read start a read, one each at most;
    [disconnect] and [send_datagram] never do.  So the number of reads
    started is at most one more than the number of completions. *)
Theorem reads_follow_completions (b : binding) (evs : list event) :
  (length (reads (lifetime b evs))
   <= 1 + length (filter is_completion evs))%nat.
Proof.
  induction evs as [|ev evs IH] using rev_ind.
  - simpl. apply (bound_state b).
  - rewrite lifetime_app, filter_app, length_app. simpl.
    rewrite (reads_effects _ _ _ (step_effects _ ev)), length_app.
    destruct (is_completion ev) eqn:Hev; simpl.
    + destruct (emitted_transport (lifetime b evs) ev) as [_ Hone]. lia.
    + destruct (call_emits_no_callback (lifetime b evs) ev Hev) as (Hr & _).
      rewrite Hr. simpl. lia.
Qed.

Lemma callbacks_of_app (a b : list effect) :
  callbacks_of (a ++ b) = callbacks_of a ++ callbacks_of b.
Proof. apply flat_map_app. Qed.

Lemma callbacks_of_no_read (l : list effect) :
  filter is_read l = [] -> callbacks_of l = [].
Proof.
  induction l as [|e l IH]; [reflexivity|].
  destruct e; cbn; try discriminate; exact IH.
Qed.

Lemma alternates_snoc (l : list receive_handler_t) :
  forall expected c,
  alternates expected (l ++ [c]) ->
  alternates expected ((l ++ [c]) ++ [other_handler c]).
Proof.
  induction l as [|d l IH]; intros expected c; cbn.
  - intros [-> _]. repeat split.
  - intros [-> H]. split; [reflexivity|]. apply IH, H.
Qed.

(** The handler of a completed read either starts no read at all, or
    starts exactly one, for the other handler. *)
Lemma completion_next (s : NetworkClient) (c : receive_handler_t) (n : Z)
    (ec : error_code) (data : list byte) (throws : option error_code) :
  outstanding s = Some (c, n) ->
  let ev := ReadCompletes ec data throws in
  (outstanding (step s ev) = None /\ callbacks_of (emitted s ev) = []) \/
  (exists n', outstanding (step s ev) = Some (other_handler c, n') /\
              callbacks_of (emitted s ev) = [other_handler c]).
Proof.
  unfold emitted.
  destruct s as [sock ssl rem loc handled local_flag cause sb db ds isd o l].
  cbn [outstanding]. intros ->.
  destruct sock as [[[|]]|]; destruct c, throws as [err|];
    split_tests;
    first [ left; split; reflexivity
          | right; eexists; split; reflexivity ].
Qed.

(** X8.  The receive loop takes its two reads in turn: in every life the
    reads handed to the transport are a prefix read, then a payload read,
    then a prefix read, and so on, whatever the consumer calls in between
    and however the loop ends. *)
Theorem reads_alternate (b : binding) (evs : list event) :
  alternates on_receive_size (read_callbacks (lifetime b evs)).
Proof.
  enough (H : alternates on_receive_size (read_callbacks (lifetime b evs)) /\
              forall c n, outstanding (lifetime b evs) = Some (c, n) ->
                exists l, read_callbacks (lifetime b evs) = l ++ [c])
    by apply H.
  induction evs as [|ev evs IH] using rev_ind.
  - destruct (bound_state b) as (_ & _ & _ & _ & _ & _ & _ & Ha & Ho).
    split; assumption.
  - destruct IH as [Ha Hlast]. rewrite lifetime_app. cbn [run fold_left].
    set (s := lifetime b evs) in *.
    unfold read_callbacks in *.
    destruct (is_completion ev) eqn:Hev.
    + destruct ev as [| |ec data throws]; try discriminate.
      destruct (outstanding s) as [[c n]|] eqn:Ho.
      * rewrite step_effects, callbacks_of_app.
        destruct (Hlast c n eq_refl) as [l Hl].
        destruct (completion_next s c n ec data throws Ho)
          as [[Ho' He]|[n' [Ho' He]]]; rewrite He, Ho'.
        -- rewrite app_nil_r. split; [exact Ha|]. discriminate.
        -- split.
           ++ rewrite Hl in *. apply alternates_snoc, Ha.
           ++ intros c' n'' [= <- <-]. eexists. reflexivity.
      * assert (Hs : step s (ReadCompletes ec data throws) = s)
          by (cbn; rewrite Ho; reflexivity).
        rewrite Hs, Ho. split; [exact Ha|]. discriminate.
    + rewrite step_effects, callbacks_of_app.
      destruct (call_emits_no_callback s ev Hev) as (Hr & _ & _ & Ho & _).
      rewrite (callbacks_of_no_read _ Hr), app_nil_r, Ho.
      split; assumption.
Qed.

(** A consumer call that records a cause makes it a local disconnect; one
    that records none leaves the disconnect record alone. *)
Lemma call_records (s : NetworkClient) (ev : event) :
  is_completion ev = false ->
  match recorded_cause ev with
  | Some ec =>
      m_local_disconnect (step s ev) = true /\
      m_disconnect_error (step s ev) = ec
  | None =>
      m_local_disconnect (step s ev) = m_local_disconnect s /\
      m_disconnect_error (step s ev) = m_disconnect_error s
  end.
Proof.
  destruct s as [sock ssl rem loc handled local_flag cause sb db ds isd o l].
  destruct ev as [ec|dg [err|]|ec data throws]; [| | |discriminate];
    intros _; split; reflexivity.
Qed.

Lemma last_recorded_snoc (calls : list event) (ev : event) :
  last_recorded (calls ++ [ev])
  = match recorded_cause ev with
    | Some ec => Some ec
    | None => last_recorded calls
    end.
Proof. unfold last_recorded. rewrite fold_left_app. reflexivity. Qed.

Lemma calls_record (calls : list event) (s : NetworkClient) :
  forallb (fun ev => negb (is_completion ev)) calls = true ->
  let s' := run s calls in
  outstanding s' = outstanding s /\
  causes s' = causes s /\
  cause_given s'
  = match last_recorded calls with
    | Some ec => fun _ => ec
    | None => cause_given s
    end.
Proof.
  induction calls as [|ev calls IH] using rev_ind; intros Hall.
  - repeat split.
  - rewrite forallb_app in Hall. apply andb_true_iff in Hall.
    destruct Hall as [Hcalls Hev]. cbn in Hev.
    rewrite andb_true_r in Hev. apply negb_true_iff in Hev.
    destruct (IH Hcalls) as (Ho & Hc & Hg).
    unfold run in *. rewrite fold_left_app. cbn [fold_left].
    set (t := fold_left step calls s) in *.
    destruct (call_emits_no_callback t ev Hev) as (_ & _ & Hc' & Ho' & _).
    pose proof (call_records t ev Hev) as Hrec.
    rewrite last_recorded_snoc.
    split; [congruence|]. split.
    + rewrite (causes_effects _ _ _ (step_effects t ev)), Hc', app_nil_r.
      exact Hc.
    + unfold cause_given in *.
      destruct (recorded_cause ev) as [ec|]; destruct Hrec as [Hl He];
        rewrite Hl, He; [reflexivity|exact Hg].
Qed.

(** C3, as the code has it.  A local disconnect with cause [c1] is issued
    while a read is outstanding; the consumer then makes any further calls,
    and the read completes with an error [c2] (or short).  The cause handed
    to [receive_disconnect], the only one, is never taken from the
    completion: it is the local cause recorded last.  That is [c1] when
    the calls in between record none (sends that succeed); a later
    [disconnect] or a [send_datagram] whose write throws replaces it, since
    the catch block of [send_datagram] calls [disconnect] too. *)
Theorem local_cause_takes_precedence (b : binding) (evs : list event)
    (callback : receive_handler_t) (len : Z)
    (c1 : error_code) (calls : list event)
    (c2 : error_code) (data : list byte) (throws : option error_code) :
  outstanding (lifetime b evs) = Some (callback, len) ->
  forallb (fun ev => negb (is_completion ev)) calls = true ->
  ec_set c2 = true \/ Z.of_nat (length data) < len ->
  causes (run (lifetime b evs)
            (CallDisconnect c1 :: calls ++ [ReadCompletes c2 data throws]))
  = [match last_recorded calls with
     | Some ec => ec
     | None => c1
     end].
Proof.
  intros Ho Hcalls Hfail.
  pose proof (wf_lifetime b evs) as Hwf.
  set (s := lifetime b evs) in *.
  assert (Hnone : causes s = [])
    by (apply (no_cause_while_reading s Hwf); congruence).
  destruct (disconnect_spec s c1)
    as (Hl & Hc & _ & He & _ & Ho1 & _).
  assert (Hwf1 : well_formed (disconnect s c1)) by apply wf_disconnect, Hwf.
  destruct (calls_record calls (disconnect s c1) Hcalls)
    as (Ho2 & Hc2 & Hg).
  rewrite Ho1, Ho in Ho2.
  destruct (completion_finalizes (run (disconnect s c1) calls)
              callback len c2 data throws
              (wf_run calls _ Hwf1) Ho2 Hfail)
    as (_ & _ & _ & Heff & _).
  change (run s (CallDisconnect c1 :: calls ++ [ReadCompletes c2 data throws]))
    with (run (disconnect s c1) (calls ++ [ReadCompletes c2 data throws])).
  unfold run in *. rewrite fold_left_app. cbn [fold_left].
  rewrite (causes_effects _ _ _ Heff), causes_of_finalize, Hc2.
  rewrite (causes_effects _ _ _ He), Hnone. cbn [causes_of flat_map app].
  rewrite Hg. unfold cause_given. rewrite Hl, Hc.
  destruct (last_recorded calls); reflexivity.
Qed.

(** X9.  The cause the handler receives is the one recorded last.  While a
    read is outstanding the consumer makes any calls; each [disconnect(ec)]
    and each [send_datagram] whose write throws records its error code,
    overwriting the previous one.  When the read then completes with an
    error, the handler receives the last recorded code, or, if the calls
    recorded none, the cause it would have received without them. *)
Theorem latest_recorded_cause_is_delivered (b : binding) (evs : list event)
    (c : receive_handler_t) (n : Z) (calls : list event)
    (e : error_code) (data : list byte) (throws : option error_code) :
  outstanding (lifetime b evs) = Some (c, n) ->
  forallb (fun ev => negb (is_completion ev)) calls = true ->
  ec_set e = true ->
  causes (run (lifetime b evs) (calls ++ [ReadCompletes e data throws]))
  = [match last_recorded calls with
     | Some ec => ec
     | None => cause_given (lifetime b evs) e
     end].
Proof.
  intros Ho Hcalls He.
  pose proof (wf_lifetime b evs) as Hwf.
  set (s := lifetime b evs) in *.
  destruct (calls_record calls s Hcalls) as (Ho' & Hc' & Hg).
  assert (Hwf' : well_formed (run s calls)) by (apply wf_run, Hwf).
  rewrite Ho in Ho'.
  destruct (completion_finalizes (run s calls) c n e data throws
              Hwf' Ho' (or_introl He))
    as (_ & _ & _ & Heff & _).
  unfold run in *. rewrite fold_left_app. cbn [fold_left].
  rewrite (causes_effects _ _ _ Heff), causes_of_finalize, Hc'.
  rewrite (no_cause_while_reading s Hwf) by congruence.
  cbn. rewrite He, Hg. destruct (last_recorded calls); reflexivity.
Qed.

Lemma run_with_log (evs : list event) :
  forall s log,
  run (with_log log s) evs
  = with_log (log ++ effects (run (with_log [] s) evs)) (run s evs).
Proof.
  induction evs as [|ev evs IH]; intros s log; cbn [run fold_left].
  - destruct s; cbn. rewrite app_nil_r. reflexivity.
  - fold (run (step (with_log log s) ev) evs).
    fold (run (step (with_log [] s) ev) evs).
    fold (run (step s ev) evs).
    rewrite (step_with_log s log ev), (step_with_log s [] ev). cbn [app].
    rewrite (IH (step s ev) (log ++ emitted s ev)).
    rewrite (IH (step s ev) (emitted s ev)).
    destruct (run (step s ev) evs); cbn. rewrite <- app_assoc.
    reflexivity.
Qed.

Lemma run_log (evs : list event) (s : NetworkClient) :
  effects (run s evs) = effects s ++ effects (run (with_log [] s) evs).
Proof.
  pose proof (run_with_log evs s (effects s)) as H.
  rewrite with_log_effects in H. rewrite H at 1.
  destruct (run s evs); reflexivity.
Qed.

(** X10.  Sending does not disturb receiving.  From any state, a
    [send_datagram] whose write succeeds changes nothing of what follows
    except the bytes written: under the same later events the same
    datagrams are delivered, the same notification is given, the same
    reads are started and the same read is left outstanding as without
    the send. *)
Theorem successful_send_is_transparent (s : NetworkClient) (dg : Datagram)
    (later : list event) :
  let sent := run (send_datagram s dg None) later in
  let unsent := run s later in
  delivered sent = delivered unsent /\
  causes sent = causes unsent /\
  reads sent = reads unsent /\
  outstanding sent = outstanding unsent /\
  is_connected sent = is_connected unsent.
Proof.
  set (w := Write (m_ssl_enabled s)
              (concat [object_bytes (swap_le (to_dgsize_t (Datagram_size dg)));
                       dg])).
  assert (Hsend : send_datagram s dg None = with_log (effects s ++ [w]) s)
    by (destruct s; reflexivity).
  cbn zeta. rewrite Hsend.
  rewrite (run_with_log later s (effects s ++ [w])).
  unfold delivered, causes, reads. rewrite (run_log later s).
  set (added := effects (run (with_log [] s) later)).
  destruct (run s later) as [sock ssl rem loc handled lf cause sb db ds isd o l].
  unfold is_connected. cbn.
  unfold delivered_of, causes_of.
  rewrite !flat_map_app, !filter_app. cbn. rewrite !app_nil_r.
  repeat split; reflexivity.
Qed.

(** A completion that passes both checks of its handler, when starting the
    next read throws. *)
Lemma full_completion_throws (s : NetworkClient) (c : receive_handler_t)
    (n : Z) (ec : error_code) (data : list byte) (err : error_code) :
  outstanding s = Some (c, n) ->
  ec_set ec = false ->
  (Z.of_nat (length (firstn (Z.to_nat n) data))
   =? match c with
      | on_receive_size => sizeof_dgsize_t
      | on_receive_data => m_data_size s
      end) = true ->
  let ev := ReadCompletes ec data (Some err) in
  outstanding (step s ev) = None /\
  m_local_disconnect (step s ev) = true /\
  m_disconnect_error (step s ev) = err /\
  is_connected (step s ev) = false /\
  m_disconnect_handled (step s ev) = m_disconnect_handled s /\
  causes_of (emitted s ev) = [] /\
  filter is_read (emitted s ev) = [].
Proof.
  unfold emitted.
  destruct s as [sock ssl rem loc handled local_flag cause sb db ds isd o l].
  cbn [outstanding m_data_size]. intros -> Hec Hcount.
  destruct sock as [[[|]]|]; destruct c;
    compute_step; rewrite Hec, Hcount; split_tests;
    repeat split; reflexivity.
Qed.

(** X11.  When starting the next read throws, nobody is told.  A read
    completes in full and without error, and initiating the read that
    should follow raises [system_error(err)]: [async_receive] turns this
    into a local disconnect (cause [err] recorded, socket closed), no read
    is outstanding any more, and from then on [receive_disconnect] is never
    called, whatever the consumer does. *)
Theorem failed_read_initiation_is_silent (b : binding) (evs : list event)
    (c : receive_handler_t) (n : Z) (ec : error_code) (data : list byte)
    (err : error_code) (later : list event) :
  outstanding (lifetime b evs) = Some (c, n) ->
  ec_set ec = false ->
  Z.of_nat (length data) = n ->
  let s' := step (lifetime b evs) (ReadCompletes ec data (Some err)) in
  m_local_disconnect s' = true /\
  m_disconnect_error s' = err /\
  is_connected s' = false /\
  outstanding (run s' later) = None /\
  reads (run s' later) = reads (lifetime b evs) /\
  causes (run s' later) = [].
Proof.
  intros Ho Hec Hlen.
  pose proof (wf_lifetime b evs) as Hwf.
  set (s := lifetime b evs) in *.
  destruct (wf_outstanding _ Hwf _ _ Ho) as [_ Hnext].
  assert (Hcount :
    (Z.of_nat (length (firstn (Z.to_nat n) data))
     =? match c with
        | on_receive_size => sizeof_dgsize_t
        | on_receive_data => m_data_size s
        end) = true).
  { rewrite firstn_all2 by lia. apply Z.eqb_eq.
    unfold next_read in Hnext.
    destruct (m_is_data s); injection Hnext as -> ->; exact Hlen. }
  destruct (full_completion_throws s c n ec data err Ho Hec Hcount)
    as (Ho' & Hl & He & Hconn & _ & Hc & Hr).
  cbn zeta.
  set (s' := step s (ReadCompletes ec data (Some err))) in *.
  destruct (idle_run later s' Ho') as (Ho'' & Hc' & _ & Hr' & _).
  repeat split; try assumption.
  - rewrite Hr'. unfold s'.
    rewrite (reads_effects _ _ _ (step_effects s _)), Hr. apply app_nil_r.
  - rewrite Hc'. unfold s'.
    rewrite (causes_effects _ _ _ (step_effects s _)), Hc, app_nil_r.
    apply (no_cause_while_reading s Hwf). congruence.
Qed.

End Endpoint.

(** ** Sender and receiver together *)

(** C4.  Framing round trip.  A sender on a host of either byte order hands
    [payload], of a length the prefix can carry, to [send_datagram]: what it
    writes is the little-endian length prefix followed by the payload
    bytes.  A receiver on a host of either byte order that is waiting for a
    prefix is fed exactly those bytes: given at least two turns the reactor
    consumes them all, and the one datagram handed to the handler is
    [payload] itself, with no disconnect notification. *)
Theorem framing_round_trip (dgsize_bytes : nat)
    (sender_big_endian receiver_big_endian : bool)
    (tx : NetworkClient) (b : binding) (evs : list event) (len : Z)
    (payload : list byte) (fuel : nat) :
  (0 < dgsize_bytes)%nat ->
  representable dgsize_bytes payload ->
  outstanding (lifetime dgsize_bytes receiver_big_endian b evs)
  = Some (on_receive_size, len) ->
  (2 <= fuel)%nat ->
  let rx := lifetime dgsize_bytes receiver_big_endian b evs in
  let tx' := send_datagram dgsize_bytes sender_big_endian tx payload None in
  let rx' := receive_message dgsize_bytes receiver_big_endian rx payload in
  effects tx'
  = effects tx ++ [Write (m_ssl_enabled tx) (frame dgsize_bytes payload)] /\
  wire tx' = wire tx ++ frame dgsize_bytes payload /\
  pump dgsize_bytes receiver_big_endian fuel rx (frame dgsize_bytes payload)
  = (rx', []) /\
  delivered rx' = delivered rx ++ [payload] /\
  causes rx' = [].
Proof.
  intros Hpos Hrep Ho Hfuel rx tx' rx'.
  pose proof (wf_lifetime dgsize_bytes receiver_big_endian b evs) as Hwf.
  fold rx in Hwf, Ho.
  assert (Htx : tx' = emit (Write (m_ssl_enabled tx)
                              (frame dgsize_bytes payload)) tx).
  { unfold tx', send_datagram, socket_write, frame, Datagram_size. simpl.
    rewrite object_bytes_swap_le, app_nil_r.
    rewrite to_dgsize_t_small; [reflexivity|].
    unfold representable in Hrep. lia. }
  destruct (message_received dgsize_bytes receiver_big_endian
              rx len payload Hwf Ho Hrep)
    as (He & Ho' & _).
  fold rx' in He, Ho'.
  repeat split.
  - rewrite Htx. reflexivity.
  - rewrite Htx. apply wire_emit.
  - do 2 (destruct fuel as [|fuel]; [lia|]).
    rewrite <- (app_nil_r (frame dgsize_bytes payload)).
    rewrite (pump_frame dgsize_bytes receiver_big_endian
               _ _ _ _ _ Hwf Ho Hrep).
    apply pump_starved; assumption.
  - rewrite (delivered_effects _ _ _ He). reflexivity.
  - rewrite (causes_effects _ _ _ He).
    rewrite (no_cause_while_reading dgsize_bytes rx Hwf) by congruence.
    reflexivity.
Qed.

(** What a successful [send_datagram] writes, for a length the prefix can
    carry. *)
Lemma send_writes_frame (dgsize_bytes : nat) (big_endian_host : bool)
    (s : NetworkClient) (payload : list byte) :
  representable dgsize_bytes payload ->
  send_datagram dgsize_bytes big_endian_host s payload None
  = emit (Write (m_ssl_enabled s) (frame dgsize_bytes payload)) s.
Proof.
  intros Hrep.
  unfold send_datagram, socket_write, frame, Datagram_size. simpl.
  rewrite object_bytes_swap_le, app_nil_r.
  rewrite to_dgsize_t_small; [reflexivity|].
  unfold representable in Hrep. lia.
Qed.

Lemma sends_write_frames (dgsize_bytes : nat) (big_endian_host : bool)
    (msgs : list (list byte)) :
  forall s, Forall (representable dgsize_bytes) msgs ->
  wire (run dgsize_bytes big_endian_host s
          (map (fun m => CallSendDatagram m None) msgs))
  = wire s ++ flat_map (frame dgsize_bytes) msgs.
Proof.
  induction msgs as [|m msgs IH]; intros s Hall; cbn [map run fold_left].
  - cbn. symmetry. apply app_nil_r.
  - inversion Hall as [|? ? Hm Hrest]; subst.
    fold (run dgsize_bytes big_endian_host
            (step dgsize_bytes big_endian_host s (CallSendDatagram m None))
            (map (fun m => CallSendDatagram m None) msgs)).
    rewrite (IH _ Hrest). cbn [step flat_map].
    rewrite (send_writes_frame _ _ _ _ Hm), wire_emit, app_assoc.
    reflexivity.
Qed.

(** X12.  Round trip of a whole stream.  A sender hands any number of
    datagrams, each of a length the prefix can carry, to [send_datagram];
    the bytes it writes are the frames in order.  A receiver waiting for a
    prefix that is fed those bytes, on a host of either byte order, given
    two turns of the reactor per message, consumes them all and hands the
    same datagrams, in the same order, to its handler, and nothing
    else. *)
Theorem stream_round_trip (dgsize_bytes : nat)
    (sender_big_endian receiver_big_endian : bool)
    (tx : NetworkClient) (b : binding) (evs : list event) (len : Z)
    (msgs : list (list byte)) (fuel : nat) :
  (0 < dgsize_bytes)%nat ->
  Forall (representable dgsize_bytes) msgs ->
  outstanding (lifetime dgsize_bytes receiver_big_endian b evs)
  = Some (on_receive_size, len) ->
  (2 * length msgs <= fuel)%nat ->
  let rx := lifetime dgsize_bytes receiver_big_endian b evs in
  let tx' := run dgsize_bytes sender_big_endian tx
               (map (fun m => CallSendDatagram m None) msgs) in
  let sent := skipn (length (wire tx)) (wire tx') in
  let rx' := receive_messages dgsize_bytes receiver_big_endian rx msgs in
  sent = flat_map (frame dgsize_bytes) msgs /\
  pump dgsize_bytes receiver_big_endian fuel rx sent = (rx', []) /\
  delivered rx' = delivered rx ++ msgs /\
  causes rx' = [].
Proof.
  intros Hpos Hall Ho Hfuel rx tx' sent rx'.
  pose proof (wf_lifetime dgsize_bytes receiver_big_endian b evs) as Hwf.
  fold rx in Hwf, Ho.
  assert (Hlen : len = sizeof_dgsize_t dgsize_bytes).
  { destruct (wf_outstanding _ _ Hwf _ _ Ho) as [_ Hnext].
    unfold next_read in Hnext.
    destruct (m_is_data rx); [discriminate|]. congruence. }
  subst len.
  assert (Hsent : sent = flat_map (frame dgsize_bytes) msgs).
  { unfold sent, tx'. rewrite (sends_write_frames _ _ _ _ Hall).
    rewrite skipn_app, Nat.sub_diag, skipn_all. reflexivity. }
  destruct (messages_received dgsize_bytes receiver_big_endian msgs rx
              Hwf Ho Hall) as (_ & _ & Hd & Hc).
  fold rx' in Hd, Hc.
  split; [exact Hsent|]. split; [|split; [exact Hd|]].
  - rewrite Hsent.
    apply (pump_frames dgsize_bytes receiver_big_endian Hpos msgs rx fuel
             Hwf Ho Hall Hfuel).
  - rewrite Hc. apply (no_cause_while_reading dgsize_bytes rx Hwf).
    congruence.
Qed.

(** On which host the endpoint runs makes no difference to a step. *)
Lemma step_any_byte_order (dgsize_bytes : nat) (s : NetworkClient)
    (ev : event) :
  well_formed dgsize_bytes s ->
  step dgsize_bytes true s ev = step dgsize_bytes false s ev.
Proof.
  intros Hwf. destruct ev as [ec|dg throws|ec data throws]; cbn [step].
  - reflexivity.
  - unfold send_datagram. rewrite !object_bytes_swap_le. reflexivity.
  - destruct (outstanding s) as [[[|] n]|] eqn:Ho; try reflexivity.
    set (got := firstn (Z.to_nat n) data).
    unfold receive_size.
    destruct (ec_set ec); [reflexivity|].
    destruct (Z.eqb_spec (Z.of_nat (length got))
                (sizeof_dgsize_t dgsize_bytes)) as [Hfull|]; [|reflexivity].
    cbn [negb].
    assert (Hgot : length (m_size_buf (completed s on_receive_size got))
                   = dgsize_bytes).
    { unfold completed. cbn. rewrite length_store.
      - apply (wf_size_buf _ _ Hwf).
      - rewrite (wf_size_buf _ _ Hwf). unfold sizeof_dgsize_t in Hfull. lia. }
    rewrite !(swap_le_object_value dgsize_bytes _ _ Hgot). reflexivity.
Qed.

(** X13.  The host's byte order does not matter: bound the same way and
    driven by the same events, an endpoint on a big-endian host and one on
    a little-endian host go through the same states and do the same
    things, byte for byte ([swap_le] being the conversion between host
    order and little-endian order). *)
Theorem host_byte_order_is_irrelevant (dgsize_bytes : nat) (b : binding)
    (evs : list event) :
  lifetime dgsize_bytes true b evs = lifetime dgsize_bytes false b evs.
Proof.
  induction evs as [|ev evs IH] using rev_ind.
  - reflexivity.
  - rewrite !lifetime_app. cbn [run fold_left]. rewrite IH.
    apply step_any_byte_order, wf_lifetime.
Qed.


(** ** The theorems at concrete endpoints

    A 16-bit prefix on a little-endian host, bound to a connected plain
    socket, unless said otherwise. *)

Lemma local_cause_takes_precedence_witness :
  let calls := [CallSendDatagram abc None] in
  outstanding (lifetime 2 false plain_binding []) = Some (on_receive_size, 2) /\
  forallb (fun ev => negb (is_completion ev)) calls = true /\
  (ec_set ecanceled = true \/ Z.of_nat (length (@nil byte)) < 2) /\
  causes (run 2 false (lifetime 2 false plain_binding [])
            (CallDisconnect econnreset
               :: calls ++ [ReadCompletes ecanceled [] None]))
  = [econnreset].
Proof.
  intros calls.
  split; [reflexivity|]. split; [reflexivity|].
  split; [left; reflexivity|].
  apply (local_cause_takes_precedence 2 false plain_binding []
           on_receive_size 2 econnreset calls ecanceled [] None);
    [reflexivity|reflexivity|left; reflexivity].
Defined.

(** C3, as stated, fails: after a local disconnect with cause
    [ECONNRESET], a [send_datagram] whose write throws [EBADF] records
    that error in its place, and when the outstanding read then completes
    with [ECANCELED] the handler receives [EBADF], not the cause of the
    local disconnect. *)
Lemma failed_send_replaces_local_cause :
  let s := run 2 false (lifetime 2 false plain_binding [])
             [CallDisconnect econnreset;
              CallSendDatagram abc (Some ebadf);
              ReadCompletes ecanceled [] None] in
  causes s = [ebadf] /\ causes s <> [econnreset].
Proof. vm_compute. split; [reflexivity|discriminate]. Qed.

(** C2, as stated, fails: after messages of lengths 10 and 5 the capacity
    is 10; a third message of length 8 exceeds the previous length 5, so
    the buffer is replaced by one of 8 bytes.  The capacity has shrunk and
    is not the largest length seen. *)
Lemma capacity_shrinks :
  let s0 := lifetime 2 false plain_binding [] in
  let capacity_after lengths :=
    capacity (receive_messages 2 false s0 (map payload_of_length lengths)) in
  capacity_after [10; 5]%nat = 10 /\
  capacity_after [10; 5; 8]%nat = 8 /\
  ~ (capacity_after [10; 5]%nat <= capacity_after [10; 5; 8]%nat) /\
  capacity_after [10; 5; 8]%nat <> Z.max 10 (Z.max 5 8).
Proof.
  vm_compute. repeat split; try discriminate.
  intros H. apply H. reflexivity.
Qed.

Lemma capacity_follows_previous_length_witness :
  let s := lifetime 2 false plain_binding [ReadCompletes no_error
             [Byte.x05; Byte.x00] None;
             ReadCompletes no_error (payload_of_length 5) None] in
  outstanding s = Some (on_receive_size, 2) /\
  (forall m, representable 2 m ->
     let n := Z.of_nat (length m) in
     let s' := receive_message 2 false s m in
     capacity s' = (if m_data_size s <? n then n else capacity s) /\
     m_data_size s' = n /\
     n <= capacity s') /\
  (forall M1 M2, representable 2 M1 ->
     Z.of_nat (length M2) < Z.of_nat (length M1) ->
     Z.of_nat (length M1) <= capacity (receive_messages 2 false s [M1; M2]) /\
     capacity (receive_messages 2 false s [M1; M2])
     = capacity (receive_message 2 false s M1)).
Proof.
  split; [reflexivity|].
  exact (capacity_follows_previous_length 2 false plain_binding
           [ReadCompletes no_error [Byte.x05; Byte.x00] None;
            ReadCompletes no_error (payload_of_length 5) None]
           2 eq_refl).
Defined.

Lemma framing_round_trip_witness :
  let rx := lifetime 2 false plain_binding [] in
  let tx := lifetime 2 true plain_binding [] in
  let tx' := send_datagram 2 true tx abc None in
  let rx' := receive_message 2 false rx abc in
  (0 < 2)%nat /\
  representable 2 abc /\
  outstanding rx = Some (on_receive_size, 2) /\
  (2 <= 2)%nat /\
  effects tx' = effects tx ++ [Write (m_ssl_enabled tx) (frame 2 abc)] /\
  wire tx' = wire tx ++ frame 2 abc /\
  pump 2 false 2 rx (frame 2 abc) = (rx', []) /\
  delivered rx' = delivered rx ++ [abc] /\
  causes rx' = [].
Proof.
  intros rx tx tx' rx'.
  split; [lia|]. split; [vm_compute; reflexivity|].
  split; [reflexivity|]. split; [lia|].
  apply (framing_round_trip 2 true false tx plain_binding [] 2 abc 2).
  - lia.
  - vm_compute; reflexivity.
  - reflexivity.
  - lia.
Defined.

(** C6, as stated, fails for writes: a failed write sets the "locally
    initiated" flag, and does not reach the finalize step. *)
Lemma write_failure_sets_local_flag :
  let s := lifetime 2 false plain_binding
             [CallSendDatagram abc (Some econnreset)] in
  m_local_disconnect s <> false /\
  m_disconnect_handled s = false /\
  causes s = [].
Proof. vm_compute. repeat split. discriminate. Qed.

Lemma io_failure_routing_witness :
  let s := lifetime 2 false plain_binding [] in
  outstanding s = Some (on_receive_size, 2) /\
  (forall ec data throws, ec_set ec = true ->
     let s' := step 2 false s (ReadCompletes ec data throws) in
     m_local_disconnect s' = m_local_disconnect s /\
     causes s' = [cause_given s ec] /\
     (m_local_disconnect s = false -> causes s' = [ec])) /\
  (forall dg err,
     let s' := step 2 false s (CallSendDatagram dg (Some err)) in
     m_local_disconnect s' = true /\
     m_disconnect_error s' = err /\
     is_connected s' = false /\
     m_disconnect_handled s' = false /\
     causes s' = [] /\
     forall ec data throws, ec_set ec = true ->
       causes (step 2 false s' (ReadCompletes ec data throws)) = [err]).
Proof.
  split; [reflexivity|].
  exact (io_failure_routing 2 false plain_binding [] on_receive_size 2
           eq_refl).
Defined.

(** A short prefix read and a short payload read. *)
Lemma short_read_disconnects_witness :
  let s := lifetime 2 false plain_binding [] in
  let t := lifetime 2 false plain_binding
             [ReadCompletes no_error [Byte.x03; Byte.x00] None] in
  (outstanding s = Some (on_receive_size, 2) /\
   Z.of_nat (length [Byte.x03]) < 2 /\
   causes (step 2 false s (ReadCompletes no_error [Byte.x03] None))
   = [epipe]) /\
  (outstanding t = Some (on_receive_data, 3) /\
   Z.of_nat (length [Byte.x61]) < 3 /\
   causes (step 2 false t (ReadCompletes no_error [Byte.x61] None))
   = [epipe]).
Proof.
  split.
  - split; [reflexivity|]. split; [reflexivity|].
    apply (short_read_disconnects 2 false plain_binding []
             on_receive_size 2 [Byte.x03] None); reflexivity.
  - split; [reflexivity|]. split; [reflexivity|].
    apply (short_read_disconnects 2 false plain_binding
             [ReadCompletes no_error [Byte.x03; Byte.x00] None]
             on_receive_data 3 [Byte.x61] None); reflexivity.
Defined.

Lemma messages_delivered_in_order_witness :
  let s := lifetime 2 false plain_binding [] in
  let M3 := payload_of_length 5 in
  let s' := receive_messages 2 false s [abc; []; M3] in
  (0 < 2)%nat /\
  outstanding s = Some (on_receive_size, 2) /\
  representable 2 abc /\ representable 2 [] /\ representable 2 M3 /\
  (6 <= 6)%nat /\
  pump 2 false 6 s (frame 2 abc ++ frame 2 [] ++ frame 2 M3) = (s', []) /\
  effects s'
  = effects s
      ++ [AsyncRead false on_receive_data 3; ReceiveDatagram abc;
          AsyncRead false on_receive_size 2;
          AsyncRead false on_receive_data 0; ReceiveDatagram [];
          AsyncRead false on_receive_size 2;
          AsyncRead false on_receive_data 5; ReceiveDatagram M3;
          AsyncRead false on_receive_size 2] /\
  delivered s' = delivered s ++ [abc; []; M3] /\
  causes s' = [].
Proof.
  intros s M3 s'.
  split; [lia|]. split; [reflexivity|].
  split; [vm_compute; reflexivity|]. split; [vm_compute; reflexivity|].
  split; [vm_compute; reflexivity|]. split; [lia|].
  apply (messages_delivered_in_order 2 false (Nat.lt_0_succ 1)
           plain_binding [] 2 abc [] M3 6);
    try reflexivity; try (vm_compute; reflexivity).
Defined.

Lemma payload_read_fits_buffer_witness :
  let s := lifetime 2 false plain_binding
             [ReadCompletes no_error [Byte.x03; Byte.x00] None] in
  outstanding s = Some (on_receive_data, 3) /\
  3 = m_data_size s /\
  0 <= 3 <= capacity s /\
  forall ec data throws,
    capacity (step 2 false s (ReadCompletes ec data throws)) = capacity s.
Proof.
  split; [reflexivity|].
  exact (payload_read_fits_buffer 2 false plain_binding
           [ReadCompletes no_error [Byte.x03; Byte.x00] None] 3 eq_refl).
Defined.

Lemma empty_message_is_delivered_witness :
  let s := lifetime 2 false plain_binding [] in
  let p := [Byte.x00; Byte.x00] in
  let s' := run 2 false s [ReadCompletes no_error p None;
                           ReadCompletes no_error [] None] in
  (0 < 2)%nat /\
  outstanding s = Some (on_receive_size, 2) /\
  length p = 2%nat /\ le_combine p = 0 /\ (2 <= 2)%nat /\
  pump 2 false 2 s p = (s', []) /\
  effects s'
  = effects s ++ [AsyncRead false on_receive_data 0;
                  ReceiveDatagram [];
                  AsyncRead false on_receive_size 2] /\
  outstanding s' = Some (on_receive_size, 2) /\
  m_disconnect_handled s' = false /\
  is_connected s' = is_connected s.
Proof.
  intros s p s'.
  split; [lia|]. split; [reflexivity|]. split; [reflexivity|].
  split; [reflexivity|]. split; [lia|].
  apply (empty_message_is_delivered 2 false (Nat.lt_0_succ 1)
           plain_binding [] 2 p 2); try reflexivity.
Defined.

Lemma destructor_safe_after_notification_witness :
  let evs := [ReadCompletes ecanceled [] None] in
  let later := [CallDisconnect no_error; CallSendDatagram abc None] in
  notifications (lifetime 2 false plain_binding evs) = 1%nat /\
  destructor (lifetime 2 false plain_binding (evs ++ later)) = Some tt.
Proof.
  intros evs later. split; [reflexivity|].
  apply (destructor_safe_after_notification 2 false plain_binding evs later).
  reflexivity.
Defined.

Lemma notification_is_the_last_callback_witness :
  let evs := [ReadCompletes ecanceled [] None] in
  let later := [ReadCompletes no_error [Byte.x03; Byte.x00] None;
                CallDisconnect econnreset;
                ReadCompletes ecanceled [] None] in
  notifications (lifetime 2 false plain_binding evs) = 1%nat /\
  delivered (lifetime 2 false plain_binding (evs ++ later))
  = delivered (lifetime 2 false plain_binding evs) /\
  causes (lifetime 2 false plain_binding (evs ++ later))
  = causes (lifetime 2 false plain_binding evs) /\
  reads (lifetime 2 false plain_binding (evs ++ later))
  = reads (lifetime 2 false plain_binding evs).
Proof.
  intros evs later. split; [reflexivity|].
  apply (notification_is_the_last_callback 2 false plain_binding evs later).
  reflexivity.
Defined.

(** A disconnect asked for by the consumer, then a write that fails: the
    handler receives the write's error. *)
Lemma latest_recorded_cause_is_delivered_witness :
  let s := lifetime 2 false plain_binding [] in
  let calls := [CallDisconnect enobufs; CallSendDatagram abc None;
                CallSendDatagram abc (Some econnreset)] in
  outstanding s = Some (on_receive_size, 2) /\
  forallb (fun ev => negb (is_completion ev)) calls = true /\
  ec_set ecanceled = true /\
  causes (run 2 false s (calls ++ [ReadCompletes ecanceled [] None]))
  = [econnreset].
Proof.
  intros s calls.
  split; [reflexivity|]. split; [reflexivity|]. split; [reflexivity|].
  apply (latest_recorded_cause_is_delivered 2 false plain_binding []
           on_receive_size 2 calls ecanceled [] None); reflexivity.
Defined.

Lemma failed_read_initiation_is_silent_witness :
  let s := lifetime 2 false plain_binding [] in
  let s' := step 2 false s
              (ReadCompletes no_error [Byte.x03; Byte.x00] (Some enobufs)) in
  let later := [CallDisconnect no_error; CallSendDatagram abc None] in
  outstanding s = Some (on_receive_size, 2) /\
  ec_set no_error = false /\
  Z.of_nat (length [Byte.x03; Byte.x00]) = 2 /\
  m_local_disconnect s' = true /\
  m_disconnect_error s' = enobufs /\
  is_connected s' = false /\
  outstanding (run 2 false s' later) = None /\
  reads (run 2 false s' later) = reads s /\
  causes (run 2 false s' later) = [].
Proof.
  intros s s' later.
  split; [reflexivity|]. split; [reflexivity|]. split; [reflexivity|].
  apply (failed_read_initiation_is_silent 2 false plain_binding []
           on_receive_size 2 no_error [Byte.x03; Byte.x00] enobufs later);
    reflexivity.
Defined.

Lemma stream_round_trip_witness :
  let rx := lifetime 2 false plain_binding [] in
  let tx := lifetime 2 true plain_binding [] in
  let msgs := [abc; []; payload_of_length 5] in
  let tx' := run 2 true tx (map (fun m => CallSendDatagram m None) msgs) in
  let sent := skipn (length (wire tx)) (wire tx') in
  let rx' := receive_messages 2 false rx msgs in
  (0 < 2)%nat /\
  Forall (representable 2) msgs /\
  outstanding rx = Some (on_receive_size, 2) /\
  (2 * length msgs <= 6)%nat /\
  sent = flat_map (frame 2) msgs /\
  pump 2 false 6 rx sent = (rx', []) /\
  delivered rx' = delivered rx ++ msgs /\
  causes rx' = [].
Proof.
  intros rx tx msgs tx' sent rx'.
  assert (Hall : Forall (representable 2) msgs)
    by (repeat constructor; vm_compute; reflexivity).
  split; [lia|]. split; [exact Hall|]. split; [reflexivity|].
  split; [cbn; lia|].
  apply (stream_round_trip 2 true false tx plain_binding [] 2 msgs 6).
  - lia.
  - exact Hall.
  - reflexivity.
  - cbn; lia.
Defined.

(** A prefix arrives, then the peer goes away. *)
Lemma notified_once_when_loop_ends_witness :
  let evs := [ReadCompletes no_error [Byte.x03; Byte.x00] None;
              ReadCompletes ecanceled [] None] in
  ec_set (snd (bind_local plain_binding)) = false /\
  bind_throws plain_binding = None /\
  (forall ec data err, ~ In (ReadCompletes ec data (Some err)) evs) /\
  outstanding (lifetime 2 false plain_binding evs) = None /\
  notifications (lifetime 2 false plain_binding evs) = 1%nat.
Proof.
  intros evs.
  assert (Hev : forall ec data err, ~ In (ReadCompletes ec data (Some err)) evs).
  { intros ec data err [H|[H|[]]]; discriminate H. }
  split; [reflexivity|]. split; [reflexivity|]. split; [exact Hev|].
  split; [reflexivity|].
  apply (notified_once_when_loop_ends 2 false plain_binding evs);
    try reflexivity. exact Hev.
Defined.
